(** * simdat: the largest-uniform-rectangle finder of [core/tools.py]

    Shallow embedding of [Tools.max_size], [Tools.max_rectangle_size] and
    [Tools.area], and the properties of the finder proved on it.

    Python integers are unbounded, so every integer of the source is a [Z].
    A row is a [list V] for an arbitrary cell type [V] with a boolean
    equality; a matrix is a list of rows.  The comparison [el == value]
    yields a Python [bool], which the source then uses as the integer
    [0] or [1] ([1 + True = 2]); it is embedded as that integer.

    The development then covers the string and path tools of the same
    file ([sign], [check_yes], [check_ext], [find_files], [find_folders],
    [path_suffix]), [convert_cats], and the argument objects of
    [core/ml.py] ([Args], [DataArgs], [MLArgs], [SVMArgs]). *)

From stdpp Require gmap strings.
From Stdlib Require Import Ascii String.
From Stdlib Require Import ZArith List Lia Bool Sorted.
Import ListNotations.
Open Scope Z_scope.

(** ** The source functions *)

(** [Info = namedtuple('Info', 'start height')] *)
Record Info : Type := mkInfo { start : Z; height : Z }.

(** A size is the pair [(height, width)]. *)
Definition size : Type := (Z * Z)%type.

(** [area(size) = reduce(mul, size)] on a pair. *)
Definition area (sz : size) : Z := fst sz * snd sz.

(** [max(a, b, key=self.area)]: Python's [max] returns the first of the
    maximal arguments, so [b] is chosen only when its key is strictly
    larger. *)
Definition max_by_area (a b : size) : size :=
  if area a <? area b then b else a.

(** The [while True] loop run for one column [pos] of height [h].  The
    stack is a list whose head is [top()]; every [continue] follows a
    [stack.pop()], so the loop is a structural recursion on the stack.
    It returns the stack and the running [max_size] at the [break]. *)
Fixpoint scan_col (pos h st : Z) (stack : list Info) (best : size)
  : list Info * size :=
  match stack with
  | [] => ([mkInfo st h], best)
  | top :: rest =>
      if height top <? h then (mkInfo st h :: stack, best)
      else if h <? height top then
        scan_col pos h (start top) rest
                 (max_by_area best (height top, pos - start top))
      else (stack, best)
  end.

(** [for pos, height in enumerate(histogram)], entered at index [pos]. *)
Fixpoint scan (pos : Z) (histogram : list Z) (stack : list Info) (best : size)
  : list Info * size :=
  match histogram with
  | [] => (stack, best)
  | h :: rest =>
      let '(stack', best') := scan_col pos h pos stack best in
      scan (pos + 1) rest stack' best'
  end.

(** The value of the variable [pos] when the [for] loop is left: [0] when
    the histogram is empty (the initial assignment), else the last index. *)
Definition last_pos (histogram : list Z) : Z :=
  match histogram with
  | [] => 0
  | _ :: _ => Z.of_nat (length histogram) - 1
  end.

(** One iteration of the flush loop [for start, height in stack]; the
    state is [(max_size, start_pos)]. *)
Definition flush_step (pos : Z) (acc : size * Z) (frame : Info) : size * Z :=
  let '(best, start_pos) := acc in
  let _max_size := max_by_area best (height frame, pos - start frame) in
  if area best <=? area _max_size then (_max_size, start frame)
  else (best, start_pos).

(** The flush walks the Python list from its first element, which is the
    bottom of the stack: the reverse of the head-is-top list. *)
Definition flush (pos : Z) (stack : list Info) (best : size) : size * Z :=
  fold_left (flush_step pos) (rev stack) (best, 0).

Definition max_rectangle_size (histogram : list Z) : size * Z :=
  let '(stack, best) := scan 0 histogram [] (0, 0) in
  flush (last_pos histogram + 1) stack best.

Section MaxSize.

Variable V : Type.
Variable eqb : V -> V -> bool.

(** [[(el == value) for el in row]] *)
Definition first_hist (row : list V) (value : V) : list Z :=
  map (fun el => if eqb el value then 1 else 0) row.

(** [[(1+h) if el == value else 0 for h, el in zip(hist, row)]] *)
Definition next_hist (hist : list Z) (row : list V) (value : V) : list Z :=
  map (fun p => if eqb (snd p) value then 1 + fst p else 0)
      (combine hist row).

(** The locals of [max_size] that the row loop reads and writes. *)
Record locals : Type := mkLocals {
  l_hist : list Z;
  l_max_size : size;
  l_start_pos : Z;
  l_start_row : Z;
  l_counter : Z
}.

(** The body of [for row in it]. *)
Definition row_step (value : V) (s : locals) (row : list V) : locals :=
  let counter := l_counter s + 1 in
  let hist := next_hist (l_hist s) row value in
  let '(_max_size, _start) := max_rectangle_size hist in
  if area (l_max_size s) <? area _max_size
  then mkLocals hist _max_size _start counter counter
  else mkLocals hist (l_max_size s) (l_start_pos s) (l_start_row s) counter.

(** The locals before the row loop: [next(it, [])] is the first row, or
    the empty list when the matrix has no row. *)
Definition init_locals (mat : list (list V)) (value : V) : locals :=
  let hist := first_hist (hd [] mat) value in
  let '(max_size, start_pos) := max_rectangle_size hist in
  mkLocals hist max_size start_pos 0 0.

Definition run_rows (mat : list (list V)) (value : V) : locals :=
  fold_left (row_step value) (tl mat) (init_locals mat value).

(** The position [(y, x)] computed after the loop. *)
Definition position (s : locals) : Z * Z :=
  let y := l_start_row s - fst (l_max_size s) + 1 in
  let x := if snd (l_max_size s) =? Z.of_nat (length (l_hist s)) then 0
           else Z.min (Z.abs (l_start_pos s - snd (l_max_size s) + 1))
                      (l_start_pos s) in
  (y, x).

(** [max_size(mat, value)] returns [(height, width), (start_y, start_x)]. *)
Definition max_size (mat : list (list V)) (value : V) : size * (Z * Z) :=
  let s := run_rows mat value in
  (l_max_size s, position s).

End MaxSize.

Arguments first_hist {V} eqb row value.
Arguments next_hist {V} eqb hist row value.
Arguments row_step {V} eqb value s row.
Arguments init_locals {V} eqb mat value.
Arguments run_rows {V} eqb mat value.
Arguments max_size {V} eqb mat value.

(** ** Calls and errors

    [max_size] and [max_rectangle_size] contain no [raise], no assertion
    and no validation of their argument, and every operation they apply to
    a list of lists ([iter], [next] with a default, [zip], [enumerate],
    [max], [min], [abs]) is total: a call always returns.  The two errors
    are the ones the specification names. *)

Inductive error : Type := EmptyMatrix | ShapeMismatch.

Inductive outcome (A : Type) : Type :=
| Returns (a : A)
| Raises (e : error).

Arguments Returns {A} a.
Arguments Raises {A} e.

Definition call_max_size {V : Type} (eqb : V -> V -> bool)
    (mat : list (list V)) (value : V) : outcome (size * (Z * Z)) :=
  Returns (max_size eqb mat value).

(** Two rows of the matrix have different lengths. *)
Definition ragged {V : Type} (mat : list (list V)) : Prop :=
  exists r1 r2, In r1 mat /\ In r2 mat /\ length r1 <> length r2.

(** ** Vocabulary of the histogram proofs

    The columns are read through a height function [g]: column [c] of the
    histogram has height [g c]. *)

(** Every column of the span [i..j) is at least [m] high. *)
Definition bounded (g : Z -> Z) (i j m : Z) : Prop :=
  forall c, i <= c < j -> m <= g c.

(** A frame met at column [p] stands for the columns [start..p), all at
    least as high as the frame. *)
Definition frame_ok (g : Z -> Z) (p : Z) (f : Info) : Prop :=
  0 <= start f < p /\ 0 <= height f /\ bounded g (start f) p (height f).

(** [a] lies above [b] in the stack. *)
Definition above (a b : Info) : Prop :=
  start b < start a /\ height b < height a.

(** The size [(h, w)] is that of a rectangle under the first [p] columns. *)
Definition fits (g : Z -> Z) (p : Z) (sz : size) : Prop :=
  0 <= fst sz /\ 0 <= snd sz /\
  exists s, 0 <= s /\ s + snd sz <= p /\ bounded g s (s + snd sz) (fst sz).

(** Some frame of the stack starts at or before [i] and is at least [m]
    high: its rectangle will contain every rectangle of height [m] that
    starts at [i]. *)
Definition covered (stack : list Info) (i m : Z) : Prop :=
  exists f, In f stack /\ start f <= i /\ m <= height f.

(** Between two columns: every rectangle that ends before [p] is covered
    by a frame or already counted in [best]; one that ends at [p] is
    covered by a frame. *)
Record scan_inv (g : Z -> Z) (p : Z) (stack : list Info) (best : size) : Prop := {
  si_sorted : StronglySorted above stack;
  si_frames : Forall (frame_ok g p) stack;
  si_fits : fits g p best;
  si_spans : forall i j m, 0 <= i < j -> j <= p -> 0 <= m -> bounded g i j m ->
      covered stack i m \/ (m * (j - i) <= area best /\ j < p)
}.

(** Inside the [while] loop at column [p] of height [h], after some
    frames were popped and [start] moved left to [st]. *)
Record col_inv (g : Z -> Z) (p h st : Z) (stack : list Info) (best : size) : Prop := {
  ci_sorted : StronglySorted above stack;
  ci_frames : Forall (frame_ok g p) stack;
  ci_fits : fits g p best;
  ci_st : 0 <= st <= p;
  ci_st_bound : bounded g st p h;
  ci_st_above : Forall (fun f => start f < st) stack;
  ci_spans : forall i j m, 0 <= i < j -> j <= p -> 0 <= m -> bounded g i j m ->
      covered stack i m \/ (m * (j - i) <= area best /\ (j = p -> st <= i))
}.

(** A list holds the columns [p], [p+1], ... of the histogram. *)
Definition columns_from (g : Z -> Z) (p : Z) (l : list Z) : Prop :=
  forall k, (k < length l)%nat -> nth k l 0 = g (p + Z.of_nat k).

(** Each frame starts right after a column whose height is that of the
    frame below it, which is lower; the bottom frame starts at column 0. *)
Inductive linked (g : Z -> Z) : list Info -> Prop :=
| linked_bottom (f : Info) : start f = 0 -> linked g [f]
| linked_above (F T : Info) (rest : list Info) :
    g (start F - 1) = height T -> height T < height F ->
    start T < start F -> linked g (T :: rest) ->
    linked g (F :: T :: rest).

(** Between two columns: the top frame has the height of the last column
    read. *)
Definition link_inv (g : Z -> Z) (p : Z) (stack : list Info) : Prop :=
  match stack with
  | [] => p = 0
  | top :: _ => height top = g (p - 1) /\ start top < p /\ linked g stack
  end.

(** Inside the [while] loop, with [start] moved left to [st]. *)
Definition hang (g : Z -> Z) (p st : Z) (stack : list Info) : Prop :=
  st <= p /\
  match stack with
  | [] => st = 0
  | top :: _ => g (st - 1) = height top /\ start top < st /\ linked g stack
  end.

(** ** The histogram problem, stated on the list *)

(** Column [c] of a histogram, by a Python index. *)
Definition column (histogram : list Z) (c : Z) : Z :=
  nth (Z.to_nat c) histogram 0.

(** The least element of a list, [0] for the empty list. *)
Definition list_min (l : list Z) : Z :=
  match l with
  | [] => 0
  | x :: l' => fold_left Z.min l' x
  end.

(** The slice [histogram[i:j]]. *)
Definition span (histogram : list Z) (i j : nat) : list Z :=
  firstn (j - i) (skipn i histogram).

(** [(j - i) * min(histogram[i..j))] *)
Definition span_area (histogram : list Z) (i j : nat) : Z :=
  Z.of_nat (j - i) * list_min (span histogram i j).

(** All index pairs [0 <= i <= j <= W]. *)
Definition all_spans (W : nat) : list (nat * nat) :=
  flat_map (fun i => map (fun j => (i, j)) (seq i (S W - i))) (seq 0 (S W)).

(** The brute-force maximum of [span_area] over all index pairs. *)
Definition max_span_area (histogram : list Z) : Z :=
  fold_right (fun ij acc => Z.max (span_area histogram (fst ij) (snd ij)) acc)
             0 (all_spans (length histogram)).

(** ** The matrix problem *)

Section MatrixVocabulary.

Variable V : Type.

(** The cell [mat[r][c]], when the matrix has one. *)
Definition cell (mat : list (list V)) (r c : nat) : option V :=
  match nth_error mat r with
  | Some row => nth_error row c
  | None => None
  end.

(** Every cell of the [h]-by-[w] rectangle whose top-left corner is
    [(top, left)] exists and equals [value]. *)
Definition all_target (mat : list (list V)) (value : V)
    (top left h w : nat) : Prop :=
  forall r c, (top <= r < top + h)%nat -> (left <= c < left + w)%nat ->
    cell mat r c = Some value.

(** The rectangle lies inside an [H]-by-[W] matrix. *)
Definition inside (H W top left h w : nat) : Prop :=
  (top + h <= H)%nat /\ (left + w <= W)%nat.

(** [hist] holds, for each of the [W] columns, the number of consecutive
    cells equal to [value] that end at row [r]. *)
Definition run_lengths (mat : list (list V)) (value : V) (W r : nat)
    (hist : list Z) : Prop :=
  length hist = W /\
  forall c h, (c < W)%nat ->
    (Z.of_nat h <= nth c hist 0 <->
     (h <= r + 1)%nat /\
     forall k, (k < h)%nat -> cell mat (r - k) c = Some value).

(** The state of the row loop after row [r]: the running size is the
    largest area of a rectangle of [value] within the rows [0..r]. *)
Record row_inv (mat : list (list V)) (value : V) (W r : nat) (s : locals)
  : Prop := {
  ri_counter : l_counter s = Z.of_nat r;
  ri_runs : run_lengths mat value W r (l_hist s);
  ri_upper : forall top left h w,
      inside (r + 1) W top left h w -> all_target mat value top left h w ->
      Z.of_nat h * Z.of_nat w <= area (l_max_size s);
  ri_attained : exists top left h w,
      inside (r + 1) W top left h w /\ all_target mat value top left h w /\
      Z.of_nat h * Z.of_nat w = area (l_max_size s)
}.

(** What the row loop keeps about the row it recorded: when the running
    size has a positive area, some rectangle of that size whose bottom row
    is [start_row] holds only [value], and no rectangle of [value] that
    ends above [start_row] is as large. *)
Record row_pos_inv (mat : list (list V)) (value : V) (W r : nat) (s : locals)
  : Prop := {
  rp_row : 0 <= l_start_row s <= Z.of_nat r;
  rp_rect : 0 < area (l_max_size s) ->
      0 < fst (l_max_size s) <= l_start_row s + 1 /\
      0 < snd (l_max_size s) /\
      exists left,
        (left + Z.to_nat (snd (l_max_size s)) <= W)%nat /\
        all_target mat value
          (Z.to_nat (l_start_row s + 1 - fst (l_max_size s))) left
          (Z.to_nat (fst (l_max_size s))) (Z.to_nat (snd (l_max_size s)));
  rp_first : forall top left h w,
      inside (Z.to_nat (l_start_row s)) W top left h w ->
      all_target mat value top left h w ->
      0 < Z.of_nat h * Z.of_nat w ->
      Z.of_nat h * Z.of_nat w < area (l_max_size s)
}.

End MatrixVocabulary.

Arguments cell {V} mat r c.
Arguments all_target {V} mat value top left h w.
Arguments run_lengths {V} mat value W r hist.
Arguments row_inv {V} mat value W r s.
Arguments row_pos_inv {V} mat value W r s.

(** ** Other tools of [core/tools.py]

    A Python 2 [str] is a byte string: a [string] of 8-bit characters. *)

(** An exception raised by a call. *)
Inductive py_exception : Type := IndexError | TypeError | OverflowError.

Inductive py_result (A : Type) : Type :=
| Value (a : A)
| Raised (e : py_exception).

Arguments Value {A} a.
Arguments Raised {A} e.

(** [TOOLS.sign] *)
Definition sign (x : Z) : Z := if 0 <=? x then 1 else -1.

(** [c.lower()] on one byte: the letters [A]..[Z] move to [a]..[z]. *)
Definition lower_ascii (c : ascii) : ascii :=
  let n := nat_of_ascii c in
  if ((65 <=? n) && (n <=? 90))%nat then ascii_of_nat (n + 32) else c.

(** [s.lower()] *)
Fixpoint lower (s : string) : string :=
  match s with
  | EmptyString => EmptyString
  | String c s' => String (lower_ascii c) (lower s')
  end.

(** [TOOLS.check_yes]: [answer.lower() in ['y', 'yes']] *)
Definition check_yes (answer : string) : bool :=
  existsb (String.eqb (lower answer)) ["y"%string; "yes"%string].

(** [s.startswith(p)] *)
Definition startswith (s p : string) : bool := String.prefix p s.

(** [s.endswith(suf)]: some tail of [s] is [suf]. *)
Fixpoint endswith (s suf : string) : bool :=
  if String.eqb s suf then true
  else match s with
       | EmptyString => false
       | String _ s' => endswith s' suf
       end.

(** [s.find(sub)], counted from [i]: the lowest index at which [sub]
    occurs, or [-1]. *)
Fixpoint find_from (s sub : string) (i : Z) : Z :=
  if String.prefix sub s then i
  else match s with
       | EmptyString => -1
       | String _ s' => find_from s' sub (i + 1)
       end.

Definition find (s sub : string) : Z := find_from s sub 0.

(** [os.path.join(a, b)] of [posixpath]. *)
Definition path_join (a b : string) : string :=
  if startswith b "/" then b
  else if String.eqb a "" || endswith a "/" then (a ++ b)%string
  else (a ++ "/" ++ b)%string.

(** The second argument of [str.endswith]: a string or a tuple of
    strings. *)
Inductive extensions : Type :=
| ExtStr (suf : string)
| ExtTuple (sufs : list string).

(** [TOOLS.check_ext] *)
Definition check_ext (file_name : string) (exts : extensions) : bool :=
  match exts with
  | ExtStr suf => endswith file_name suf
  | ExtTuple sufs => existsb (endswith file_name) sufs
  end.

(** One entry [(dirPath, dirNames, fileNames)] of [os.walk]. *)
Definition walk_entry : Type := (string * list string * list string)%type.

(** [TOOLS.find_folders], on the entries [os.walk(dir_path)] yields. *)
Definition find_folders (walk : list walk_entry) (keyword : option string)
  : py_result (list string) :=
  match map (fun x => snd (fst x)) walk with
  | [] => Raised IndexError
  | dirs :: _ =>
      Value (match keyword with
             | None => dirs
             | Some kw => filter (fun d => 0 <=? find d kw) dirs
             end)
  end.

(** The body of the outer loop of [TOOLS.find_files]. *)
Definition find_files_dir (keyword : option string) (suffix : extensions)
    (output : list string) (entry : walk_entry) : list string :=
  let '(dirPath, _, fileNames) := entry in
  let dirmatch :=
    match keyword with
    | Some kw => 0 <? find dirPath kw
    | None => false
    end in
  fold_left
    (fun out f =>
       if match keyword with
          | Some kw => find dirPath kw <? 0
          | None => false
          end && negb dirmatch
       then out
       else if check_ext f suffix then out ++ [path_join dirPath f]
       else out)
    fileNames output.

(** [TOOLS.find_files], on the entries [os.walk(dir_path)] yields. *)
Definition find_files (walk : list walk_entry) (keyword : option string)
    (suffix : extensions) : list string :=
  fold_left (find_files_dir keyword suffix) walk [].

(** [s.split(sep)] for a separator of one character. *)
Fixpoint split_on (sep : ascii) (s : string) : list string :=
  match s with
  | EmptyString => [EmptyString]
  | String c s' =>
      if Ascii.eqb c sep then EmptyString :: split_on sep s'
      else match split_on sep s' with
           | [] => [String c EmptyString]
           | w :: ws => String c w :: ws
           end
  end.

(** [l[-i]] for [i >= 1]; [None] stands for [IndexError]. *)
Definition from_end {A : Type} (l : list A) (i : nat) : option A :=
  nth_error (rev l) (i - 1).

(** One iteration of the loop of [TOOLS.path_suffix]:
    [suf = os.path.join(splits[0-i], suf)]. *)
Definition path_suffix_step (splits : list string) (acc : py_result string)
    (i : nat) : py_result string :=
  match acc with
  | Raised e => Raised e
  | Value suf =>
      match from_end splits i with
      | Some part => Value (path_join part suf)
      | None => Raised IndexError
      end
  end.

(** [TOOLS.path_suffix]; [range(2, level+1)] has [level - 1] elements,
    none when [level < 2]. *)
Definition path_suffix (path : string) (level : Z) : py_result string :=
  let splits := split_on "/" path in
  fold_left (path_suffix_step splits) (seq 2 (Z.to_nat (level - 1)))
            (match from_end splits 1 with
             | Some suf => Value suf
             | None => Raised IndexError
             end).

(** [sep.join(l)] *)
Fixpoint join_with (sep : string) (l : list string) : string :=
  match l with
  | [] => EmptyString
  | x :: l' =>
      match l' with
      | [] => x
      | _ :: _ => (x ++ sep ++ join_with sep l')%string
      end
  end.

(** The character does not occur in the string. *)
Fixpoint lacks (sep : ascii) (s : string) : bool :=
  match s with
  | EmptyString => true
  | String c s' => negb (Ascii.eqb c sep) && lacks sep s'
  end.

(** The number of occurrences of a character. *)
Fixpoint count_char (sep : ascii) (s : string) : nat :=
  match s with
  | EmptyString => 0
  | String c s' => (if Ascii.eqb c sep then 1 else 0) + count_char sep s'
  end.

Definition nonempty (s : string) : bool := negb (String.eqb s "").

(** ** [DATA.convert_cats], on a list of integer labels

    The cells of the array are the floats [0.] and [1.], written [0] and
    [1]. *)

(** [l[i] = x] on a list, for an index inside the list. *)
Fixpoint set_nth {A : Type} (l : list A) (i : nat) (x : A) : list A :=
  match l, i with
  | [], _ => []
  | _ :: l', O => x :: l'
  | a :: l', S i' => a :: set_nth l' i' x
  end.

(** [pd.Series(y).value_counts().count()]: the number of distinct
    labels. *)
Definition n_distinct (y : list Z) : nat := length (nodup Z.eq_dec y).

(** The index fits the C integer numpy converts it to, a signed integer
    of 64 bits. *)
Definition fits_intp (j : Z) : bool := (- 2 ^ 63 <=? j) && (j <? 2 ^ 63).

(** [row[j] = 1] on a numpy row: an index that does not fit the C integer
    raises [OverflowError]; a negative index counts from the end, and an
    index outside [-n, n) raises [IndexError]. *)
Definition set_one (row : list Z) (j : Z) : py_result (list Z) :=
  let n := Z.of_nat (length row) in
  if negb (fits_intp j) then Raised OverflowError
  else if (0 <=? j) && (j <? n) then Value (set_nth row (Z.to_nat j) 1)
  else if (- n <=? j) && (j <? 0) then Value (set_nth row (Z.to_nat (j + n)) 1)
  else Raised IndexError.

(** The body of [for i, v in _y.iteritems()]: [new_y[i][v - 1] = 1]. *)
Definition convert_cats_step (acc : py_result (list (list Z))) (iv : nat * Z)
  : py_result (list (list Z)) :=
  match acc with
  | Raised e => Raised e
  | Value new_y =>
      match nth_error new_y (fst iv) with
      | None => Raised IndexError
      | Some row =>
          match set_one row (snd iv - 1) with
          | Value row' => Value (set_nth new_y (fst iv) row')
          | Raised e => Raised e
          end
      end
  end.

Definition convert_cats (y : list Z) : py_result (list (list Z)) :=
  let ncols := n_distinct y in
  let nrows := length y in
  let new_y := repeat (repeat 0 ncols) nrows in
  fold_left convert_cats_step (combine (seq 0 nrows) y) (Value new_y).

(** The row of [k] cells that holds [1] in the cell [j] and [0]
    elsewhere. *)
Definition one_hot (k j : nat) : list Z := set_nth (repeat 0 k) j 1.

(** The column a label is written to, among [k] columns. *)
Definition label_column (k : nat) (v : Z) : nat :=
  Z.to_nat ((v - 1) mod Z.of_nat k).

(** The labels [convert_cats] can write, among [k] columns. *)
Definition label_ok (k : nat) (v : Z) : bool :=
  (1 - Z.of_nat k <=? v) && (v <=? Z.of_nat k).

(** The exception that writing the label [v] raises among [k] columns,
    if any. *)
Definition label_error (k : nat) (v : Z) : option py_exception :=
  if negb (fits_intp (v - 1)) then Some OverflowError
  else if label_ok k v then None
  else Some IndexError.

(** The exception of the first label that raises one. *)
Fixpoint first_error (k : nat) (ys : list Z) : option py_exception :=
  match ys with
  | [] => None
  | v :: ys' =>
      match label_error k v with
      | Some e => Some e
      | None => first_error k ys'
      end
  end.

(** ** The argument objects of [core/ml.py]

    [self.__dict__] is a finite map from attribute names to values; a
    profile is the JSON object [parse_json] reads from a file. *)

Module Profiles.

Import stdpp.base stdpp.strings stdpp.gmap.

(** The values an attribute holds.  A float is kept as the decimal
    literal that denotes it, [digits * 10 ^ exponent]; no arithmetic is
    done on attributes. *)
#[warnings="-register-all"]
Inductive pyval : Type :=
| VNone
| VBool (b : bool)
| VInt (n : Z)
| VFloat (digits exponent : Z)
| VStr (s : string)
| VList (l : list pyval)
| VDict (d : gmap string pyval).

Abbreviation attrs := (gmap string pyval).

(** What a path holds: [None] when [os.path.isfile] is false, else the
    JSON object of the file. *)
Definition file_system : Type := string -> option (gmap string pyval).

(** The body of [for k in inparm], with [cinst] the attribute names taken
    before the loop. *)
Definition set_known (cinst : gset string) (self : attrs)
    (kv : string * pyval) : attrs :=
  if decide (kv.1 ∈ cinst) then <[kv.1 := kv.2]> self else self.

(** [Args._set_args] *)
Definition set_args (fs : file_system) (self : attrs) (f : string) : attrs :=
  match fs f with
  | None => self
  | Some inparm => foldl (set_known (dom self)) self (map_to_list inparm)
  end.

(** [DataArgs._add_da_args] *)
Definition add_da_args (self : attrs) : attrs :=
  let self := <["target" := VNone]> self in
  let self := <["start" := VNone]> self in
  let self := <["end" := VNone]> self in
  let self := <["query_map" := VNone]> self in
  let self := <["extend_map" := VNone]> self in
  let self := <["target_bin" := VBool true]> self in
  let self := <["inc_flat" := VBool true]> self in
  let self := <["label" := VStr "trend"]> self in
  let self := <["flat_thre" := VFloat 2 (-3)]> self in
  let self := <["shift" := VInt 1]> self in
  let self := <["norm" := VStr "l2"]> self in
  <["extend_by_shift" := VBool true]> self.

(** [MLArgs._add_ml_args] *)
Definition add_ml_args (self : attrs) : attrs :=
  let self := <["njobs" := VInt 4]> self in
  let self := <["nfolds" := VInt 5]> self in
  let self := <["test_size" := VFloat 33 (-2)]> self in
  let self := <["random" := VInt 42]> self in
  <["outd" := VStr "./"]> self.

(** The four grids of [SVMArgs._set_grids]. *)
Definition grid_rbf : gmap string pyval :=
  <["gamma" := VList [VFloat 1 (-4); VFloat 5 (-4); VFloat 1 (-3);
                      VFloat 5 (-3); VFloat 1 (-2); VFloat 1 (-1)]]>
    {["kernel" := VList [VStr "rbf"]]}.

Definition grid_linear : gmap string pyval :=
  {["kernel" := VList [VStr "linear"]]}.

Definition grid_poly : gmap string pyval :=
  <["degree" := VList [VInt 1; VInt 2; VInt 3; VInt 4]]>
    (<["coef0" := VList [VInt 1; VInt 10; VInt 100; VInt 1000]]>
       {["kernel" := VList [VStr "poly"]]}).

Definition grid_sigmoid : gmap string pyval :=
  <["coef0" := VList [VInt 1; VInt 10; VInt 100; VInt 1000]]>
    {["kernel" := VList [VStr "sigmoid"]]}.

Definition grids_all : list (gmap string pyval) :=
  [grid_rbf; grid_linear; grid_poly; grid_sigmoid].

(** [a == b] where [a] is a string of a grid: equal strings only. *)
Definition str_eq (a b : pyval) : bool :=
  match a, b with
  | VStr s, VStr t => bool_decide (s = t)
  | _, _ => false
  end.

(** [g['kernel'][0]] *)
Definition first_kernel (g : gmap string pyval) : pyval :=
  match g !! "kernel" with
  | Some (VList (k :: _)) => k
  | _ => VNone
  end.

(** [SVMArgs._set_grids], as a function of [self.kernel]. *)
Definition set_grids (kernel : pyval) : list (gmap string pyval) :=
  if negb (str_eq (VStr "auto") kernel) then
    match List.find (fun g => str_eq (first_kernel g) kernel) grids_all with
    | Some g => [g]
    | None => grids_all
    end
  else grids_all.

(** [if type(self.C) is not list: self.C = [self.C]] *)
Definition as_list (C : pyval) : pyval :=
  match C with
  | VList _ => C
  | _ => VList [C]
  end.

(** [SVMArgs._set_grids_C], as a function of [self.C] and [self.grids]:
    the new [self.C] and the grids. *)
Definition set_grids_C (C : pyval) (grids : list (gmap string pyval))
  : pyval * list (gmap string pyval) :=
  let C := as_list C in
  (C, map (fun g => match g !! "C" with
                    | Some _ => g
                    | None => <["C" := C]> g
                    end) grids).

(** [SVMArgs._add_svm_args] *)
Definition add_svm_args (self : attrs) : attrs :=
  let kernel := VStr "rbf" in
  let C := VList [VFloat 1 (-1); VInt 1; VInt 10; VInt 100; VInt 1000] in
  let self := <["kernel" := kernel]> self in
  let self := <["degree" := VInt 3]> self in
  let self := <["C" := C]> self in
  let self := <["grids" := VList (map VDict (set_grids kernel))]> self in
  let '(C', grids) := set_grids_C C (set_grids kernel) in
  <["grids" := VList (map VDict grids)]> (<["C" := C']> self).

(** The classes of argument objects. *)
Inductive cls : Type := Args | DataArgs | MLArgs | SVMArgs.

(** [_add_args] of each class. *)
Definition add_args (c : cls) (self : attrs) : attrs :=
  match c with
  | Args => self
  | DataArgs => add_da_args self
  | MLArgs => add_ml_args self
  | SVMArgs => add_svm_args (add_ml_args self)
  end.

(** [Args.__init__]: the defaults, then every profile in turn. *)
Definition init (c : cls) (fs : file_system) (pfs : list string) : attrs :=
  foldl (set_args fs) (add_args c ∅) pfs.

End Profiles.

(** The keyword test that both walks come down to: no keyword, or the
    keyword is found in the name. *)
Definition keyword_in (keyword : option string) (name : string) : bool :=
  match keyword with
  | None => true
  | Some kw => 0 <=? find name kw
  end.

(** ** Choosing by area, and the flush loop *)

Lemma area_max_by_area_l (a b : size) : area a <= area (max_by_area a b).
Proof. unfold max_by_area. destruct (Z.ltb_spec (area a) (area b)); lia. Qed.

Lemma area_max_by_area_r (a b : size) : area b <= area (max_by_area a b).
Proof. unfold max_by_area. destruct (Z.ltb_spec (area a) (area b)); lia. Qed.

Lemma max_by_area_cases (a b : size) :
  max_by_area a b = a \/ max_by_area a b = b.
Proof. unfold max_by_area. destruct (area a <? area b); auto. Qed.

(** The guard of the flush loop compares [_max_size], already the larger
    of the two by area, with [max_size]: it always holds, so every frame
    overwrites [start_pos]. *)
Lemma flush_step_eq (pos : Z) (best : size) (start_pos : Z) (frame : Info) :
  flush_step pos (best, start_pos) frame =
  (max_by_area best (height frame, pos - start frame), start frame).
Proof.
  unfold flush_step.
  pose proof (area_max_by_area_l best (height frame, pos - start frame)) as H.
  destruct (Z.leb_spec (area best)
              (area (max_by_area best (height frame, pos - start frame))));
    [reflexivity | lia].
Qed.

(** The size left by the flush loop is at least as large as the size it
    started from and as the rectangle of every frame, and it is one of
    them. *)
Lemma flush_loop (pos : Z) (frames : list Info) :
  forall (best : size) (start_pos : Z) (r : size * Z),
    r = fold_left (flush_step pos) frames (best, start_pos) ->
    area best <= area (fst r) /\
    (forall f, In f frames -> area (height f, pos - start f) <= area (fst r)) /\
    (fst r = best \/
     exists f, In f frames /\ fst r = (height f, pos - start f)).
Proof.
  induction frames as [|f frames IH]; intros best start_pos r ->;
    cbn [fold_left].
  - simpl. repeat split; [lia | intros f [] | now left].
  - rewrite flush_step_eq.
    destruct (IH (max_by_area best (height f, pos - start f)) (start f)
                 _ eq_refl) as (Hle & Hall & Hone).
    pose proof (area_max_by_area_l best (height f, pos - start f)) as Hl.
    pose proof (area_max_by_area_r best (height f, pos - start f)) as Hr.
    repeat split.
    + lia.
    + intros f' [<- | Hin]; [lia | now apply Hall].
    + destruct Hone as [E | (f' & Hin & E)].
      * destruct (max_by_area_cases best (height f, pos - start f)) as [E'|E'].
        -- left. congruence.
        -- right. exists f. split; [now left | congruence].
      * right. exists f'. split; [now right | trivial].
Qed.

(** ** The monotonic stack on one histogram, all heights non-negative *)

Section Histogram.

Variable g : Z -> Z.
Hypothesis g_nonneg : forall c, 0 <= g c.

Lemma fits_mono (p q : Z) (sz : size) : p <= q -> fits g p sz -> fits g q sz.
Proof.
  intros Hpq (Hh & Hw & s & Hs & Hp & Hb).
  repeat split; trivial. exists s. repeat split; trivial. lia.
Qed.

Lemma frame_fits (p : Z) (f : Info) :
  frame_ok g p f -> fits g p (height f, p - start f).
Proof.
  intros (Hs & Hh & Hb). unfold fits; simpl. repeat split; try lia.
  exists (start f). repeat split; try lia.
  intros c Hc. apply Hb. lia.
Qed.

Lemma frame_covers (p : Z) (f : Info) (i j m : Z) :
  frame_ok g p f -> 0 <= i < j -> j <= p -> 0 <= m ->
  start f <= i -> m <= height f ->
  m * (j - i) <= area (height f, p - start f).
Proof.
  intros (Hs & Hh & _) Hij Hj Hm Hi Hmh. unfold area; simpl.
  apply Z.mul_le_mono_nonneg; lia.
Qed.

Lemma scan_inv_enter (p : Z) (stack : list Info) (best : size) :
  scan_inv g p stack best -> 0 <= p -> col_inv g p (g p) p stack best.
Proof.
  intros [Hs Hf Hb Hsp] Hp. split; trivial; try lia.
  - intros c Hc. lia.
  - eapply Forall_impl; [|exact Hf]. intros f (Hst & _). lia.
  - intros i j m Hij Hj Hm Hbd.
    destruct (Hsp i j m Hij Hj Hm Hbd) as [Hc | [Ha Hlt]]; [now left|].
    right. split; trivial. lia.
Qed.

Lemma covered_by (f : Info) (stack : list Info) (i m : Z) :
  In f stack -> start f <= i -> m <= height f -> covered stack i m.
Proof. intros Hin Hs Hh. exists f. auto. Qed.

Lemma frame_ok_next (p : Z) (f : Info) :
  frame_ok g p f -> height f <= g p -> frame_ok g (p + 1) f.
Proof.
  intros (Hs & Hh & Hb) Hle. repeat split; try lia.
  intros c Hc. destruct (Z.eq_dec c p) as [->|Hne]; trivial.
  apply Hb. lia.
Qed.

Lemma sorted_heights (top : Info) (rest : list Info) :
  StronglySorted above (top :: rest) ->
  Forall (fun f => height f < height top) rest.
Proof.
  intros Hs. apply StronglySorted_inv in Hs. destruct Hs as [_ Hall].
  eapply Forall_impl; [|exact Hall]. intros f [_ Hh]. exact Hh.
Qed.

Lemma sorted_starts (top : Info) (rest : list Info) :
  StronglySorted above (top :: rest) ->
  Forall (fun f => start f < start top) rest.
Proof.
  intros Hs. apply StronglySorted_inv in Hs. destruct Hs as [_ Hall].
  eapply Forall_impl; [|exact Hall]. intros f [Hst _]. exact Hst.
Qed.

(** Frames that stay on the stack are no higher than the new column. *)
Lemma frames_next (p h : Z) (stack : list Info) :
  h = g p -> StronglySorted above stack -> Forall (frame_ok g p) stack ->
  (forall top rest, stack = top :: rest -> height top <= h) ->
  Forall (frame_ok g (p + 1)) stack.
Proof.
  intros -> Hs Hf Htop. destruct stack as [|top rest]; [constructor|].
  specialize (Htop top rest eq_refl).
  pose proof (sorted_heights _ _ Hs) as Hlow.
  inversion Hf as [|? ? Hf1 Hf2]; subst. constructor.
  - now apply frame_ok_next.
  - rewrite Forall_forall in *. intros f Hin.
    apply frame_ok_next; [now apply Hf2|]. specialize (Hlow f Hin). lia.
Qed.

(** The push branches: the frame [(st, h)] goes on top. *)
Lemma push_inv (p h st : Z) (stack : list Info) (best : size) :
  h = g p -> 0 <= p -> col_inv g p h st stack best ->
  (forall top rest, stack = top :: rest -> height top < h) ->
  scan_inv g (p + 1) (mkInfo st h :: stack) best.
Proof.
  intros Hh Hp [Hs Hf Hb Hst Hbd Hab Hsp] Htop. split.
  - constructor; trivial.
    destruct stack as [|top rest]; [constructor|].
    specialize (Htop top rest eq_refl).
    pose proof (sorted_heights _ _ Hs) as Hlow.
    rewrite Forall_forall in *. intros f Hin. split.
    + now apply Hab.
    + simpl. destruct Hin as [<-|Hin]; [lia|]. specialize (Hlow f Hin). lia.
  - constructor.
    + repeat split; simpl; try lia.
      * subst h. apply g_nonneg.
      * intros c Hc. destruct (Z.eq_dec c p) as [->|Hne]; [lia|].
        apply Hbd. lia.
    + apply (frames_next p h); trivial.
      intros top rest E. specialize (Htop top rest E). lia.
  - apply (fits_mono p); [lia | trivial].
  - intros i j m Hij Hj Hm Hbnd.
    destruct (Z.eq_dec j (p + 1)) as [->|Hne].
    + left. assert (Hmh : m <= h) by (subst h; apply Hbnd; lia).
      destruct (Z.eq_dec i p) as [->|Hip].
      * apply (covered_by (mkInfo st h)); simpl; [now left | lia | trivial].
      * assert (Hb' : bounded g i p m) by (intros c Hc; apply Hbnd; lia).
        destruct (Hsp i p m ltac:(lia) ltac:(lia) Hm Hb')
          as [(f & Hin & Hfs & Hfh) | [_ Hsti]].
        -- apply (covered_by f); [now right | trivial | trivial].
        -- apply (covered_by (mkInfo st h)); simpl;
             [now left | now apply Hsti | trivial].
    + destruct (Hsp i j m Hij ltac:(lia) Hm Hbnd)
        as [(f & Hin & Hfs & Hfh) | [Ha _]].
      * left. apply (covered_by f); [now right | trivial | trivial].
      * right. split; [trivial | lia].
Qed.

(** The [break] branch on equal heights: the stack is left as it is. *)
Lemma merge_inv (p h st : Z) (top : Info) (rest : list Info) (best : size) :
  h = g p -> 0 <= p -> col_inv g p h st (top :: rest) best ->
  height top = h ->
  scan_inv g (p + 1) (top :: rest) best.
Proof.
  intros Hh Hp [Hs Hf Hb Hst Hbd Hab Hsp] Htop. split; trivial.
  - apply (frames_next p h); trivial.
    intros t r E. injection E as <- <-. lia.
  - apply (fits_mono p); [lia | trivial].
  - assert (Htf : frame_ok g p top) by (now inversion Hf).
    assert (Hts : start top < st) by (now inversion Hab).
    intros i j m Hij Hj Hm Hbnd.
    destruct (Z.eq_dec j (p + 1)) as [->|Hne].
    + left. assert (Hmh : m <= h) by (subst h; apply Hbnd; lia).
      destruct (Z.eq_dec i p) as [->|Hip].
      * apply (covered_by top); [now left | | lia].
        destruct Htf as (? & _). lia.
      * assert (Hb' : bounded g i p m) by (intros c Hc; apply Hbnd; lia).
        destruct (Hsp i p m ltac:(lia) ltac:(lia) Hm Hb')
          as [Hc | [_ Hsti]]; trivial.
        apply (covered_by top); [now left | | lia].
        specialize (Hsti eq_refl). lia.
    + destruct (Hsp i j m Hij ltac:(lia) Hm Hbnd) as [Hc | [Ha _]].
      * now left.
      * right. split; [trivial | lia].
Qed.

(** The pop branch keeps the loop invariant, with [start] moved to the
    popped frame's start. *)
Lemma pop_inv (p h st : Z) (top : Info) (rest : list Info) (best : size) :
  col_inv g p h st (top :: rest) best -> h < height top ->
  col_inv g p h (start top) rest
          (max_by_area best (height top, p - start top)).
Proof.
  intros [Hs Hf Hb Hst Hbd Hab Hsp] Hlt.
  assert (Htf : frame_ok g p top) by (now inversion Hf).
  assert (Hts : start top < st) by (now inversion Hab).
  split.
  - now apply StronglySorted_inv in Hs.
  - now inversion Hf.
  - destruct (max_by_area_cases best (height top, p - start top)) as [-> | ->];
      [trivial | now apply frame_fits].
  - destruct Htf as (? & _). lia.
  - destruct Htf as (_ & _ & Hbt). intros c Hc. specialize (Hbt c Hc). lia.
  - now apply sorted_starts.
  - intros i j m Hij Hj Hm Hbnd.
    pose proof (area_max_by_area_l best (height top, p - start top)) as Hl.
    pose proof (area_max_by_area_r best (height top, p - start top)) as Hr.
    destruct (Hsp i j m Hij Hj Hm Hbnd)
      as [(f & [<- | Hin] & Hfs & Hfh) | [Ha Hsti]].
    + right. split; [|intros _; trivial].
      pose proof (frame_covers p top i j m Htf Hij Hj Hm Hfs Hfh). lia.
    + left. now apply (covered_by f).
    + right. split; [lia|]. intros E. specialize (Hsti E). lia.
Qed.

(** One column: the [while] loop re-establishes the invariant for the
    next column. *)
Lemma scan_col_inv (p h : Z) :
  h = g p -> 0 <= p ->
  forall stack st best, col_inv g p h st stack best ->
    scan_inv g (p + 1) (fst (scan_col p h st stack best))
                     (snd (scan_col p h st stack best)).
Proof.
  intros Hh Hp. induction stack as [|top rest IH]; intros st best Hinv; simpl.
  - apply push_inv; trivial. intros ? ? E; discriminate E.
  - destruct (Z.ltb_spec (height top) h) as [Hlt|Hge]; simpl.
    + apply push_inv; trivial. intros t r E. injection E as <- <-. trivial.
    + destruct (Z.ltb_spec h (height top)) as [Hlt|Hge']; simpl.
      * apply IH. now apply (pop_inv p h st).
      * apply (merge_inv p h st); trivial. lia.
Qed.

Lemma columns_from_cons (p h : Z) (l : list Z) :
  columns_from g p (h :: l) -> h = g p /\ columns_from g (p + 1) l.
Proof.
  intros H. split.
  - specialize (H 0%nat ltac:(simpl; lia)). simpl in H.
    now rewrite Z.add_0_r in H.
  - intros k Hk. specialize (H (S k) ltac:(simpl; lia)). simpl nth in H.
    rewrite H. f_equal. lia.
Qed.

Lemma scan_inv_all (l : list Z) :
  forall p stack best, 0 <= p -> columns_from g p l ->
    scan_inv g p stack best ->
    scan_inv g (p + Z.of_nat (length l)) (fst (scan p l stack best))
                                       (snd (scan p l stack best)).
Proof.
  induction l as [|h l IH]; intros p stack best Hp Hcols Hinv; simpl scan.
  - simpl. now rewrite Z.add_0_r.
  - apply columns_from_cons in Hcols. destruct Hcols as [Hh Hcols].
    pose proof (scan_col_inv p h Hh Hp stack p best) as Hstep.
    destruct (scan_col p h p stack best) as [stack' best'] eqn:E.
    simpl in Hstep.
    replace (p + Z.of_nat (length (h :: l)))
      with (p + 1 + Z.of_nat (length l)) by (simpl length; lia).
    apply IH; [lia | trivial |].
    apply Hstep. subst h. now apply scan_inv_enter.
Qed.

Lemma scan_inv_init : scan_inv g 0 [] (0, 0).
Proof.
  split.
  - constructor.
  - constructor.
  - unfold fits; simpl. repeat split; try lia. exists 0.
    repeat split; try lia. intros c Hc. lia.
  - intros i j m Hij Hj. lia.
Qed.

(** The result of the whole scan and flush, read through [g]: the
    returned size is that of a rectangle under the histogram, and no
    rectangle under the histogram has a larger area. *)
Lemma max_rectangle_size_columns (histogram : list Z) :
  columns_from g 0 histogram ->
  let W := Z.of_nat (length histogram) in
  let best := fst (max_rectangle_size histogram) in
  fits g W best /\
  forall i j m, 0 <= i < j -> j <= W -> 0 <= m -> bounded g i j m ->
    m * (j - i) <= area best.
Proof.
  intros Hcols W best.
  pose proof (scan_inv_all histogram 0 [] (0, 0) ltac:(lia) Hcols
                scan_inv_init) as Hinv.
  subst best. unfold max_rectangle_size.
  destruct (scan 0 histogram [] (0, 0)) as [stack best] eqn:E.
  simpl in Hinv. fold W in Hinv. destruct Hinv as [_ Hf Hb Hsp].
  unfold flush.
  destruct (flush_loop (last_pos histogram + 1) (rev stack) best 0
              _ eq_refl) as (Hle & Hall & Hone).
  assert (Hpos : stack <> [] -> last_pos histogram + 1 = W).
  { intros Hne. destruct histogram as [|h t].
    - simpl in E. injection E as <- <-. now contradiction Hne.
    - unfold last_pos, W. lia. }
  split.
  - destruct Hone as [-> | (f & Hin & ->)]; trivial.
    apply in_rev in Hin. rewrite Hpos by (intros ->; inversion Hin).
    apply frame_fits. rewrite Forall_forall in Hf. now apply Hf.
  - intros i j m Hij Hj Hm Hbnd.
    destruct (Hsp i j m Hij Hj Hm Hbnd)
      as [(f & Hin & Hfs & Hfh) | [Ha _]]; [|lia].
    rewrite Forall_forall in Hf.
    pose proof (frame_covers W f i j m (Hf f Hin) Hij Hj Hm Hfs Hfh) as Hc.
    specialize (Hall f ltac:(now apply in_rev in Hin)).
    rewrite Hpos in Hall |- * by (intros ->; inversion Hin). lia.
Qed.

End Histogram.

(** ** The histogram result on the list *)

Lemma column_nonneg (histogram : list Z) :
  Forall (fun h => 0 <= h) histogram -> forall c, 0 <= column histogram c.
Proof.
  intros Hall c. unfold column.
  destruct (nth_in_or_default (Z.to_nat c) histogram 0) as [Hin | ->]; [|lia].
  rewrite Forall_forall in Hall. now apply Hall.
Qed.

Lemma columns_from_column (histogram : list Z) :
  columns_from (column histogram) 0 histogram.
Proof. intros k _. unfold column. f_equal. lia. Qed.

Lemma max_rectangle_size_list (histogram : list Z) :
  Forall (fun h => 0 <= h) histogram ->
  let W := Z.of_nat (length histogram) in
  let best := fst (max_rectangle_size histogram) in
  fits (column histogram) W best /\
  forall i j m, 0 <= i < j -> j <= W -> 0 <= m ->
    bounded (column histogram) i j m -> m * (j - i) <= area best.
Proof.
  intros Hall. apply max_rectangle_size_columns.
  - now apply column_nonneg.
  - apply columns_from_column.
Qed.

Lemma fold_min_le (l : list Z) :
  forall a, fold_left Z.min l a <= a /\
            forall x, In x l -> fold_left Z.min l a <= x.
Proof.
  induction l as [|y l IH]; intros a; simpl.
  - split; [lia | intros x []].
  - destruct (IH (Z.min a y)) as [H1 H2]. split; [lia|].
    intros x [<- | Hin]; [lia | now apply H2].
Qed.

Lemma list_min_le (l : list Z) (x : Z) : In x l -> list_min l <= x.
Proof.
  destruct l as [|a l]; [intros []|]. simpl.
  destruct (fold_min_le l a) as [H1 H2].
  intros [<- | Hin]; [trivial | now apply H2].
Qed.

Lemma fold_min_glb (m : Z) (l : list Z) :
  forall a, m <= a -> (forall x, In x l -> m <= x) -> m <= fold_left Z.min l a.
Proof.
  induction l as [|y l IH]; intros a Ha Hl; simpl; trivial.
  apply IH.
  - specialize (Hl y (or_introl eq_refl)). lia.
  - intros x Hin. apply Hl. now right.
Qed.

Lemma list_min_glb (m : Z) (l : list Z) :
  l <> [] -> (forall x, In x l -> m <= x) -> m <= list_min l.
Proof.
  destruct l as [|a l]; [congruence|]. intros _ Hl. simpl.
  apply fold_min_glb.
  - apply Hl. now left.
  - intros x Hin. apply Hl. now right.
Qed.

Lemma length_span (histogram : list Z) (i j : nat) :
  (i <= j <= length histogram)%nat -> length (span histogram i j) = (j - i)%nat.
Proof.
  intros H. unfold span. rewrite length_firstn, length_skipn. lia.
Qed.

Lemma nth_span (histogram : list Z) (i j k : nat) :
  (k < j - i)%nat -> nth k (span histogram i j) 0 = nth (i + k) histogram 0.
Proof.
  intros H. unfold span. rewrite nth_firstn, nth_skipn.
  destruct (Nat.ltb_spec k (j - i)); [reflexivity | lia].
Qed.

Lemma span_column (histogram : list Z) (i j c : nat) :
  (i <= c < j)%nat -> (j <= length histogram)%nat ->
  In (nth c histogram 0) (span histogram i j).
Proof.
  intros Hc Hj. replace c with (i + (c - i))%nat by lia.
  rewrite <- (nth_span histogram i j) by lia.
  apply nth_In. rewrite length_span; lia.
Qed.

Lemma In_span (histogram : list Z) (i j : nat) (x : Z) :
  (i <= j <= length histogram)%nat -> In x (span histogram i j) ->
  exists c, (i <= c < j)%nat /\ x = nth c histogram 0.
Proof.
  intros Hij Hin. apply (In_nth _ _ 0) in Hin. destruct Hin as (k & Hk & <-).
  rewrite length_span in Hk by trivial.
  exists (i + k)%nat. split; [lia|]. now apply nth_span.
Qed.

Lemma span_area_nonneg (histogram : list Z) (i j : nat) :
  Forall (fun h => 0 <= h) histogram -> (i <= j <= length histogram)%nat ->
  0 <= list_min (span histogram i j).
Proof.
  intros Hall Hij. destruct (Nat.eq_dec i j) as [->|Hne].
  - unfold span. rewrite Nat.sub_diag. simpl. lia.
  - apply list_min_glb.
    + intros E. apply (f_equal (@length Z)) in E.
      rewrite length_span in E by trivial. simpl in E. lia.
    + intros x Hin. apply In_span in Hin; trivial.
      destruct Hin as (c & Hc & ->). rewrite Forall_forall in Hall.
      apply Hall. apply nth_In. lia.
Qed.

(** No span of the histogram has an area above the returned one. *)
Lemma span_area_le_result (histogram : list Z) (i j : nat) :
  Forall (fun h => 0 <= h) histogram -> (i <= j <= length histogram)%nat ->
  span_area histogram i j <= area (fst (max_rectangle_size histogram)).
Proof.
  intros Hall Hij.
  destruct (max_rectangle_size_list histogram Hall) as [Hfit Hmax].
  unfold span_area. destruct (Nat.eq_dec i j) as [->|Hne].
  - rewrite Nat.sub_diag. simpl.
    destruct Hfit as (Hh & Hw & _). unfold area. now apply Z.mul_nonneg_nonneg.
  - pose proof (span_area_nonneg histogram i j Hall Hij) as Hm.
    specialize (Hmax (Z.of_nat i) (Z.of_nat j) (list_min (span histogram i j))).
    replace (Z.of_nat (j - i)) with (Z.of_nat j - Z.of_nat i) by lia.
    rewrite Z.mul_comm. apply Hmax; try lia.
    intros c Hc. unfold column. apply list_min_le.
    apply span_column; lia.
Qed.

(** The returned area is the area of some span. *)
Lemma result_is_span_area (histogram : list Z) :
  Forall (fun h => 0 <= h) histogram ->
  exists i j, (i <= j <= length histogram)%nat /\
    span_area histogram i j = area (fst (max_rectangle_size histogram)).
Proof.
  intros Hall.
  destruct (max_rectangle_size_list histogram Hall) as [Hfit _].
  destruct (fst (max_rectangle_size histogram)) as [h w] eqn:E.
  destruct Hfit as (Hh & Hw & s & Hs & Hsw & Hb). simpl in *.
  destruct (Z.eq_dec w 0) as [->|Hw0].
  - exists 0%nat, 0%nat. split; [lia|]. unfold span_area, area. simpl. lia.
  - exists (Z.to_nat s), (Z.to_nat (s + w)).
    assert (Hij : (Z.to_nat s <= Z.to_nat (s + w) <= length histogram)%nat)
      by lia.
    split; trivial. apply Z.le_antisymm.
    + rewrite <- E. now apply span_area_le_result.
    + unfold span_area, area. simpl.
      replace (Z.of_nat (Z.to_nat (s + w) - Z.to_nat s)) with w by lia.
      rewrite (Z.mul_comm h w). apply Z.mul_le_mono_nonneg_l; [lia|].
      apply list_min_glb.
      * intros E'. apply (f_equal (@length Z)) in E'.
        rewrite length_span in E' by trivial. simpl in E'. lia.
      * intros x Hin. apply In_span in Hin; trivial.
        destruct Hin as (c & Hc & ->).
        specialize (Hb (Z.of_nat c) ltac:(lia)). unfold column in Hb.
        now rewrite Nat2Z.id in Hb.
Qed.

Lemma in_all_spans (W i j : nat) :
  In (i, j) (all_spans W) <-> (i <= j <= W)%nat.
Proof.
  unfold all_spans. rewrite in_flat_map. split.
  - intros (i' & Hi & Hin). rewrite in_map_iff in Hin.
    destruct Hin as (j' & E & Hj). injection E as <- <-.
    rewrite in_seq in Hi, Hj. lia.
  - intros H. exists i. split; [apply in_seq; lia|].
    apply in_map_iff. exists j. split; [reflexivity | apply in_seq; lia].
Qed.

Lemma fold_max_spec (f : nat * nat -> Z) (l : list (nat * nat)) :
  let M := fold_right (fun ij acc => Z.max (f ij) acc) 0 l in
  (forall ij, In ij l -> f ij <= M) /\
  (M = 0 \/ exists ij, In ij l /\ f ij = M).
Proof.
  induction l as [|a l [IH1 IH2]]; simpl.
  - split; [intros ij [] | now left].
  - split.
    + intros ij [<- | Hin]; [lia|]. specialize (IH1 ij Hin). lia.
    + destruct (Z.max_spec (f a)
                 (fold_right (fun ij acc => Z.max (f ij) acc) 0 l))
        as [[_ ->] | [_ ->]].
      * destruct IH2 as [E | (ij & Hin & E)]; [now left|].
        right. exists ij. auto.
      * right. exists a. auto.
Qed.

(** [max_span_area] is the maximum of [span_area] over all index pairs. *)
Lemma max_span_area_spec (histogram : list Z) :
  (forall i j, (i <= j <= length histogram)%nat ->
     span_area histogram i j <= max_span_area histogram) /\
  (exists i j, (i <= j <= length histogram)%nat /\
     span_area histogram i j = max_span_area histogram).
Proof.
  unfold max_span_area.
  destruct (fold_max_spec
              (fun ij => span_area histogram (fst ij) (snd ij))
              (all_spans (length histogram))) as [H1 H2].
  split.
  - intros i j Hij. apply (H1 (i, j)). now apply in_all_spans.
  - destruct H2 as [E | ([i j] & Hin & E)].
    + exists 0%nat, 0%nat. split; [lia|]. rewrite E.
      unfold span_area. simpl. lia.
    + exists i, j. split; [now apply in_all_spans | exact E].
Qed.

(** C3: on a histogram of non-negative heights, the area of the size
    returned by [max_rectangle_size] is the maximum, over all index pairs
    [0 <= i <= j <= W], of [(j - i) * min(histogram[i..j))]: it bounds the
    area of every span, it is the area of one of them, and it is the value
    of the brute-force search (0 on the empty histogram). *)
Theorem max_rectangle_size_max_area (histogram : list Z) :
  Forall (fun h => 0 <= h) histogram ->
  let A := area (fst (max_rectangle_size histogram)) in
  (forall i j, (i <= j <= length histogram)%nat ->
     span_area histogram i j <= A) /\
  (exists i j, (i <= j <= length histogram)%nat /\
     span_area histogram i j = A) /\
  A = max_span_area histogram.
Proof.
  intros Hall A.
  assert (Hub : forall i j, (i <= j <= length histogram)%nat ->
                  span_area histogram i j <= A)
    by (intros i j Hij; now apply span_area_le_result).
  pose proof (result_is_span_area histogram Hall) as Hex.
  repeat split; trivial.
  destruct (max_span_area_spec histogram) as [Hm1 (i & j & Hij & Hm2)].
  destruct Hex as (i' & j' & Hij' & E).
  apply Z.le_antisymm.
  - fold A in E. rewrite <- E. now apply Hm1.
  - rewrite <- Hm2. now apply Hub.
Qed.

Lemma max_rectangle_size_max_area_witness :
  Forall (fun h => 0 <= h) [2; 1; 5; 6; 2; 3] /\
  area (fst (max_rectangle_size [2; 1; 5; 6; 2; 3])) =
  max_span_area [2; 1; 5; 6; 2; 3].
Proof.
  assert (H : Forall (fun h => 0 <= h) [2; 1; 5; 6; 2; 3])
    by (repeat constructor; lia).
  split; [exact H|].
  exact (proj2 (proj2 (max_rectangle_size_max_area [2; 1; 5; 6; 2; 3] H))).
Defined.

(** ** The row loop of [max_size] on a rectangular matrix *)

Lemma nth_error_combine_Some {A B : Type} (l : list A) (l' : list B) :
  forall c x y, nth_error l c = Some x -> nth_error l' c = Some y ->
    nth_error (combine l l') c = Some (x, y).
Proof.
  revert l'. induction l as [|a l IH]; intros [|b l'] [|c] x y Hx Hy;
    simpl in *; try discriminate.
  - congruence.
  - now apply IH.
Qed.

Lemma skipn_cons_inv {A : Type} (n : nat) :
  forall (l : list A) x t, skipn n l = x :: t ->
    nth_error l n = Some x /\ skipn (S n) l = t.
Proof.
  induction n as [|n IH]; intros [|a l] x t E; simpl in *; try discriminate.
  - injection E as <- <-. auto.
  - now apply IH.
Qed.

Lemma nonempty_cons {A : Type} (l : list A) :
  l <> [] -> exists x t, l = x :: t.
Proof. destruct l as [|x t]; [congruence | intros _; eauto]. Qed.

Section Matrix.

Variable V : Type.
Variable eqb : V -> V -> bool.
Hypothesis eqb_eq : forall a b, eqb a b = true <-> a = b.

Variable mat : list (list V).
Variable value : V.
Variable W : nat.
Hypothesis rectangular : Forall (fun row => length row = W) mat.

Lemma row_length (r : nat) (row : list V) :
  nth_error mat r = Some row -> length row = W.
Proof.
  intros E. apply nth_error_In in E.
  rewrite Forall_forall in rectangular. now apply rectangular.
Qed.

Lemma cell_in_row (r c : nat) (row : list V) :
  nth_error mat r = Some row -> cell mat r c = nth_error row c.
Proof. intros E. unfold cell. now rewrite E. Qed.

Lemma first_hist_nth (row : list V) (c : nat) (el : V) :
  nth_error row c = Some el ->
  nth c (first_hist eqb row value) 0 = if eqb el value then 1 else 0.
Proof.
  intros E. apply nth_error_nth. unfold first_hist.
  rewrite nth_error_map, E. reflexivity.
Qed.

Lemma next_hist_nth (hist : list Z) (row : list V) (c : nat) (el : V) :
  (c < length hist)%nat -> nth_error row c = Some el ->
  nth c (next_hist eqb hist row value) 0 =
  if eqb el value then 1 + nth c hist 0 else 0.
Proof.
  intros Hc E. apply nth_error_nth. unfold next_hist.
  rewrite nth_error_map.
  rewrite (nth_error_combine_Some hist row c (nth c hist 0) el); trivial.
  now apply nth_error_nth'.
Qed.

Lemma eqb_false (a b : V) : eqb a b = false -> a <> b.
Proof. intros E <-. rewrite (proj2 (eqb_eq a a) eq_refl) in E. discriminate. Qed.

Lemma run_lengths_first (row : list V) :
  nth_error mat 0 = Some row ->
  run_lengths mat value W 0 (first_hist eqb row value).
Proof.
  intros Hrow. pose proof (row_length 0 row Hrow) as HW. split.
  - unfold first_hist. now rewrite length_map.
  - intros c h Hc.
    destruct (nth_error row c) as [el|] eqn:E;
      [|apply nth_error_None in E; lia].
    rewrite (first_hist_nth row c el E).
    pose proof (cell_in_row 0 c row Hrow) as Hcell. rewrite E in Hcell.
    destruct (eqb el value) eqn:Eq.
    + apply eqb_eq in Eq. subst el. split.
      * intros Hh. split; [lia|]. intros k Hk.
        replace (0 - k)%nat with 0%nat by lia. exact Hcell.
      * intros [Hh _]. lia.
    + apply eqb_false in Eq. split.
      * intros Hh. split; [lia|]. intros k Hk. lia.
      * intros [Hh Hk]. destruct h as [|h]; [lia|].
        specialize (Hk 0%nat ltac:(lia)). simpl in Hk. congruence.
Qed.

Lemma run_lengths_next (r : nat) (hist : list Z) (row : list V) :
  nth_error mat (S r) = Some row ->
  run_lengths mat value W r hist ->
  run_lengths mat value W (S r) (next_hist eqb hist row value).
Proof.
  intros Hrow [Hlen Hruns]. pose proof (row_length (S r) row Hrow) as HW.
  split.
  - unfold next_hist. rewrite length_map, length_combine. lia.
  - intros c h Hc.
    destruct (nth_error row c) as [el|] eqn:E;
      [|apply nth_error_None in E; lia].
    rewrite (next_hist_nth hist row c el ltac:(lia) E).
    pose proof (cell_in_row (S r) c row Hrow) as Hcell. rewrite E in Hcell.
    destruct (eqb el value) eqn:Eq.
    + apply eqb_eq in Eq. subst el. destruct h as [|h].
      * split; [intros _; split; [lia | intros k Hk; lia] | intros _].
        pose proof (proj2 (Hruns c 0%nat Hc)) as H0.
        specialize (H0 ltac:(split; [lia | intros k Hk; lia])). lia.
      * specialize (Hruns c h Hc). split.
        -- intros Hh. destruct (proj1 Hruns ltac:(lia)) as [Hle Hk].
           split; [lia|]. intros [|k] Hlt.
           ++ now rewrite Nat.sub_0_r.
           ++ replace (S r - S k)%nat with (r - k)%nat by lia.
              apply Hk. lia.
        -- intros [Hle Hk].
           assert (Z.of_nat h <= nth c hist 0); [|lia].
           apply Hruns. split; [lia|]. intros k Hlt.
           specialize (Hk (S k) ltac:(lia)).
           now replace (S r - S k)%nat with (r - k)%nat in Hk by lia.
    + apply eqb_false in Eq. split.
      * intros Hh. split; [lia|]. intros k Hk. lia.
      * intros [Hh Hk]. destruct h as [|h]; [lia|].
        specialize (Hk 0%nat ltac:(lia)). rewrite Nat.sub_0_r in Hk.
        congruence.
Qed.

Lemma run_lengths_nonneg (r : nat) (hist : list Z) :
  run_lengths mat value W r hist -> Forall (fun h => 0 <= h) hist.
Proof.
  intros [Hlen Hruns]. rewrite Forall_forall. intros x Hin.
  apply (In_nth _ _ 0) in Hin. destruct Hin as (c & Hc & <-).
  apply (Hruns c 0%nat ltac:(lia)). split; [lia|]. intros k Hk. lia.
Qed.

(** A rectangle of [value] whose bottom row is [r] lies under the
    histogram of row [r]. *)
Lemma hist_upper (r : nat) (hist : list Z) (top left h w : nat) :
  run_lengths mat value W r hist ->
  (top + h = r + 1)%nat -> (left + w <= W)%nat ->
  all_target mat value top left h w ->
  Z.of_nat h * Z.of_nat w <= area (fst (max_rectangle_size hist)).
Proof.
  intros Hrl Htop Hleft Hall.
  pose proof (run_lengths_nonneg r hist Hrl) as Hnn.
  destruct (max_rectangle_size_list hist Hnn) as [Hfit Hmax].
  destruct Hrl as [Hlen Hruns].
  destruct (Nat.eq_dec w 0) as [->|Hw].
  - destruct Hfit as (Hh & Hw & _). unfold area.
    rewrite Z.mul_0_r. now apply Z.mul_nonneg_nonneg.
  - specialize (Hmax (Z.of_nat left) (Z.of_nat left + Z.of_nat w) (Z.of_nat h)).
    replace (Z.of_nat left + Z.of_nat w - Z.of_nat left) with (Z.of_nat w)
      in Hmax by lia.
    apply Hmax; try lia.
    intros c Hc. unfold column. apply Hruns; [lia|].
    split; [lia|]. intros k Hk. apply Hall; lia.
Qed.

(** The size found under the histogram of row [r] is that of a rectangle
    of [value] within the rows [0..r]. *)
Lemma hist_attained (r : nat) (hist : list Z) :
  run_lengths mat value W r hist ->
  exists top left h w,
    inside (r + 1) W top left h w /\ all_target mat value top left h w /\
    Z.of_nat h * Z.of_nat w = area (fst (max_rectangle_size hist)).
Proof.
  intros Hrl.
  pose proof (run_lengths_nonneg r hist Hrl) as Hnn.
  destruct (max_rectangle_size_list hist Hnn) as [Hfit _].
  destruct Hrl as [Hlen Hruns].
  destruct (fst (max_rectangle_size hist)) as [hh ww].
  destruct Hfit as (Hh & Hw & s & Hs & Hsw & Hb). simpl in *.
  destruct (Z.eq_dec (hh * ww) 0) as [E0|Hne].
  - exists 0%nat, 0%nat, 0%nat, 0%nat. repeat split; try lia.
    + intros r' c Hr' Hc. lia.
    + unfold area; simpl. lia.
  - assert (Hh1 : 0 < hh) by nia. assert (Hw1 : 0 < ww) by nia.
    assert (Hrun : forall c, (Z.to_nat s <= c < Z.to_nat s + Z.to_nat ww)%nat ->
              (Z.to_nat hh <= r + 1)%nat /\
              forall k, (k < Z.to_nat hh)%nat ->
                cell mat (r - k) c = Some value).
    { intros c Hc. apply Hruns; [lia|].
      specialize (Hb (Z.of_nat c) ltac:(lia)). unfold column in Hb.
      rewrite Nat2Z.id in Hb. lia. }
    destruct (Hrun (Z.to_nat s) ltac:(lia)) as [Hle _].
    exists (r + 1 - Z.to_nat hh)%nat, (Z.to_nat s), (Z.to_nat hh), (Z.to_nat ww).
    repeat split; try lia.
    + intros r' c Hr' Hc. destruct (Hrun c Hc) as [_ Hk].
      replace r' with (r - (r - r'))%nat by lia. apply Hk. lia.
    + unfold area; simpl. lia.
Qed.

Lemma area_nonneg_of_attained (r : nat) (sz : size) :
  (exists top left h w,
     inside r W top left h w /\ all_target mat value top left h w /\
     Z.of_nat h * Z.of_nat w = area sz) ->
  0 <= area sz.
Proof. intros (top & left & h & w & _ & _ & <-). lia. Qed.

Lemma inside_mono (H H' top left h w : nat) :
  (H <= H')%nat -> inside H W top left h w -> inside H' W top left h w.
Proof. unfold inside. lia. Qed.

Lemma row_inv_first (row : list V) (rows : list (list V)) :
  mat = row :: rows -> row_inv mat value W 0 (init_locals eqb mat value).
Proof.
  intros Emat.
  assert (Hrow : nth_error mat 0 = Some row) by (now rewrite Emat).
  pose proof (run_lengths_first row Hrow) as Hrl.
  assert (Hhd : hd [] mat = row) by (now rewrite Emat).
  unfold init_locals. rewrite Hhd.
  destruct (max_rectangle_size (first_hist eqb row value)) as [ms sp] eqn:E.
  assert (Ems : ms = fst (max_rectangle_size (first_hist eqb row value)))
    by (now rewrite E).
  split; simpl; trivial.
  - intros top left h w [Ht Hl] Hall. destruct (Nat.eq_dec h 0) as [->|Hh].
    + pose proof (area_nonneg_of_attained 1 ms) as Hnn.
      rewrite Ems in Hnn |- *. specialize (Hnn (hist_attained 0 _ Hrl)). lia.
    + rewrite Ems. apply (hist_upper 0 _ top left h w); trivial. lia.
  - rewrite Ems. now apply (hist_attained 0).
Qed.

Lemma row_inv_step (r : nat) (s : locals) (row : list V) :
  nth_error mat (S r) = Some row -> row_inv mat value W r s ->
  row_inv mat value W (S r) (row_step eqb value s row).
Proof.
  intros Hrow [Hcnt Hrl Hup Hat].
  pose proof (run_lengths_next r (l_hist s) row Hrow Hrl) as Hrl'.
  unfold row_step.
  destruct (max_rectangle_size (next_hist eqb (l_hist s) row value))
    as [ms sp] eqn:E.
  assert (Ems : ms = fst (max_rectangle_size
                            (next_hist eqb (l_hist s) row value)))
    by (now rewrite E).
  pose proof (hist_attained (S r) _ Hrl') as Hat'. rewrite <- Ems in Hat'.
  assert (Hnew : forall top left h w,
            (top + h = S r + 1)%nat -> (left + w <= W)%nat ->
            all_target mat value top left h w ->
            Z.of_nat h * Z.of_nat w <= area ms).
  { intros top left h w Ht Hl Hall. rewrite Ems.
    now apply (hist_upper (S r) _ top left h w). }
  assert (Hupper : forall best, area (l_max_size s) <= area best ->
            area ms <= area best ->
            forall top left h w,
              inside (S r + 1) W top left h w ->
              all_target mat value top left h w ->
              Z.of_nat h * Z.of_nat w <= area best).
  { intros best Hold Hnw top left h w [Ht Hl] Hall.
    destruct (Nat.eq_dec (top + h) (S r + 1)) as [Eb|Hb].
    - specialize (Hnew top left h w Eb Hl Hall). lia.
    - assert (Hin : inside (r + 1) W top left h w) by (unfold inside; lia).
      specialize (Hup top left h w Hin Hall). lia. }
  destruct (Z.ltb_spec (area (l_max_size s)) (area ms)) as [Hlt|Hge].
  - split; simpl; trivial.
    + lia.
    + apply Hupper; lia.
  - split; simpl; trivial.
    + lia.
    + apply Hupper; lia.
    + destruct Hat as (top & left & h & w & Hin & Hall & Ha).
      exists top, left, h, w. repeat split; trivial.
      * destruct Hin. lia.
      * now destruct Hin.
Qed.

Lemma row_inv_fold (rest : list (list V)) :
  forall r s, skipn (S r) mat = rest -> row_inv mat value W r s ->
    row_inv mat value W (r + length rest)
            (fold_left (row_step eqb value) rest s).
Proof.
  induction rest as [|row rest IH]; intros r s Hskip Hinv; simpl.
  - now rewrite Nat.add_0_r.
  - apply skipn_cons_inv in Hskip. destruct Hskip as [Hrow Hskip].
    replace (r + S (length rest))%nat with (S r + length rest)%nat by lia.
    apply IH; trivial. now apply row_inv_step.
Qed.

Lemma row_inv_run_rows :
  mat <> [] -> row_inv mat value W (length mat - 1) (run_rows eqb mat value).
Proof.
  intros Hne. destruct (nonempty_cons mat Hne) as (row & rows & Emat).
  unfold run_rows.
  replace (length mat - 1)%nat with (0 + length (tl mat))%nat
    by (rewrite Emat; simpl; lia).
  apply row_inv_fold.
  - now rewrite Emat.
  - now apply (row_inv_first row rows).
Qed.

End Matrix.

(** ** Properties of [max_size] *)

(** C1: on a non-empty rectangular matrix, the area of the size returned
    by [max_size] is the maximum area of a sub-rectangle all of whose cells
    equal the target value: no such rectangle is larger, one of them has
    exactly that area, and the area is 0 when the value never occurs. *)
Theorem max_size_max_area {V : Type} (eqb : V -> V -> bool)
    (mat : list (list V)) (value : V) (W : nat) :
  (forall a b, eqb a b = true <-> a = b) ->
  mat <> [] ->
  Forall (fun row => length row = W) mat ->
  let A := area (fst (max_size eqb mat value)) in
  (forall top left h w,
     inside (length mat) W top left h w ->
     all_target mat value top left h w ->
     Z.of_nat h * Z.of_nat w <= A) /\
  (exists top left h w,
     inside (length mat) W top left h w /\
     all_target mat value top left h w /\
     Z.of_nat h * Z.of_nat w = A) /\
  ((forall r c, cell mat r c <> Some value) -> A = 0).
Proof.
  intros Heq Hne Hrect A.
  destruct (row_inv_run_rows V eqb Heq mat value W Hrect Hne)
    as [_ _ Hup Hat].
  assert (HH : (length mat - 1 + 1)%nat = length mat).
  { destruct mat; [congruence | simpl; lia]. }
  rewrite HH in Hup, Hat. subst A. simpl fst.
  repeat split; trivial.
  intros Hnone. destruct Hat as (top & left & h & w & _ & Hall & <-).
  destruct h as [|h]; [lia|]. destruct w as [|w]; [lia|].
  exfalso. apply (Hnone top left). apply Hall; lia.
Qed.

Lemma max_size_max_area_witness :
  let mat := [[1; 1; 0]; [1; 1; 0]; [0; 0; 0]] in
  (forall top left h w,
     inside 3 3 top left h w -> all_target mat 1 top left h w ->
     Z.of_nat h * Z.of_nat w <= 4) /\
  (exists top left h w,
     inside 3 3 top left h w /\ all_target mat 1 top left h w /\
     Z.of_nat h * Z.of_nat w = 4).
Proof.
  intros mat.
  assert (Hne : mat <> []) by discriminate.
  assert (Hrect : Forall (fun row : list Z => length row = 3%nat) mat)
    by (repeat constructor).
  destruct (max_size_max_area Z.eqb mat 1 3 Z.eqb_eq Hne Hrect)
    as (Hup & Hat & _).
  split; [exact Hup | exact Hat].
Defined.

(** C2 (violated by the code): a matrix on which the position returned by
    [max_size] is not that of a rectangle of the target value.  On
    [[0,1,1,0]] the size (1, 2) is found while a frame is popped in the
    scan, which records no start column; the returned position is (0, 0),
    where the cell is 0. *)
Theorem max_size_position_not_uniform :
  max_size Z.eqb [[0; 1; 1; 0]] 1 = ((1, 2), (0, 0)) /\
  cell [[0; 1; 1; 0]] 0 0 = Some 0 /\
  ~ all_target [[0; 1; 1; 0]] 1 0 0 1 2.
Proof.
  repeat split.
  intros Hall. specialize (Hall 0%nat 0%nat ltac:(lia) ltac:(lia)).
  discriminate Hall.
Qed.

(** The same defect seen through the flush: on [[1,1,0,1]] the start
    column left by the flush is that of the last frame, and the position
    (0, 2) covers the cell 0 at column 2. *)
Lemma max_size_position_from_last_frame :
  max_size Z.eqb [[1; 1; 0; 1]] 1 = ((1, 2), (0, 2)) /\
  cell [[1; 1; 0; 1]] 0 2 = Some 0.
Proof. split; reflexivity. Qed.

(** The returned rectangle can also leave the matrix on the right: here
    [left_column + width = 2 + 6 > 7]. *)
Lemma max_size_position_outside :
  max_size Z.eqb [[0; 0; 0; 1; 1; 1; 1];
                  [0; 1; 1; 1; 1; 1; 1];
                  [0; 1; 1; 1; 1; 1; 1]] 1 = ((2, 6), (1, 2)).
Proof. reflexivity. Qed.

(** ** The two phases of [max_rectangle_size] *)

(** The start column returned by the flush is that of the last frame
    walked, the top of the stack, whatever the areas; it is 0 on an empty
    stack. *)
Lemma flush_start_pos (pos : Z) (stack : list Info) (best : size) :
  snd (flush pos stack best) =
  match stack with
  | [] => 0
  | top :: _ => start top
  end.
Proof.
  unfold flush. destruct stack as [|top rest]; [reflexivity|].
  simpl rev. rewrite fold_left_app. simpl.
  destruct (fold_left (flush_step pos) (rev rest) (best, 0)) as [b sp].
  now rewrite flush_step_eq.
Qed.

(** C6 (violated by the code): on the histogram [[3,3,0,1]] the flush
    meets the frame [(3, 1)] with the best size (3, 2) of area 6 and start
    column 0.  The candidate (1, 1) has area 1, strictly smaller, and the
    best size is kept, but the start column becomes 3. *)
Theorem flush_overwrites_start_pos :
  scan 0 [3; 3; 0; 1] [] (0, 0) = ([mkInfo 3 1; mkInfo 0 0], (3, 2)) /\
  flush_step 4 ((3, 2), 0) (mkInfo 0 0) = ((3, 2), 0) /\
  area (1, 4 - 3) < area (3, 2) /\
  flush_step 4 ((3, 2), 0) (mkInfo 3 1) = ((3, 2), 3) /\
  max_rectangle_size [3; 3; 0; 1] = ((3, 2), 3).
Proof. repeat split. Qed.

(** On an exact tie the flush keeps the earlier size and takes the later
    start column: (2, 6) starts at column 1, the recorded start is 3. *)
Lemma flush_tie_mixes_size_and_start :
  max_rectangle_size [0; 2; 2; 3; 3; 3; 3] = ((2, 6), 3).
Proof. reflexivity. Qed.

(** One pop: when the scan pops the frame [top] at column [pos], the loop
    goes on with the rest of the stack, [start] set to the frame's start,
    and the running best replaced by the candidate
    [(height top, pos - start top)] when its area is strictly larger, and
    kept when the areas are equal or the candidate's is smaller. *)
Theorem scan_col_pop (pos h st : Z) (top : Info) (rest : list Info)
    (best : size) :
  h < height top ->
  let cand := (height top, pos - start top) in
  scan_col pos h st (top :: rest) best =
    scan_col pos h (start top) rest (max_by_area best cand) /\
  (area best < area cand -> max_by_area best cand = cand) /\
  (area cand <= area best -> max_by_area best cand = best).
Proof.
  intros Hlt cand. repeat split.
  - simpl. destruct (Z.ltb_spec (height top) h); [lia|].
    destruct (Z.ltb_spec h (height top)); [reflexivity | lia].
  - intros Ha. unfold max_by_area.
    destruct (Z.ltb_spec (area best) (area cand)); [reflexivity | lia].
  - intros Ha. unfold max_by_area.
    destruct (Z.ltb_spec (area best) (area cand)); [lia | reflexivity].
Qed.

Lemma scan_col_pop_witness :
  1 < height (mkInfo 0 2) /\
  scan_col 2 1 2 [mkInfo 0 2] (1, 2) = scan_col 2 1 0 [] (2, 2) /\
  scan_col 1 1 1 [mkInfo 0 2] (2, 1) = scan_col 1 1 0 [] (2, 1).
Proof.
  assert (H : 1 < height (mkInfo 0 2)) by (simpl; lia).
  split; [exact H|]. split.
  - exact (proj1 (scan_col_pop 2 1 2 (mkInfo 0 2) [] (1, 2) H)).
  - exact (proj1 (scan_col_pop 1 1 1 (mkInfo 0 2) [] (2, 1) H)).
Defined.


(** The stack a scan leaves does not depend on the sizes compared. *)
Lemma scan_col_stack (pos h : Z) (stack : list Info) :
  forall st best best',
    fst (scan_col pos h st stack best) = fst (scan_col pos h st stack best').
Proof.
  induction stack as [|top rest IH]; intros st best best'; cbn [scan_col].
  - reflexivity.
  - destruct (height top <? h); [reflexivity|].
    destruct (h <? height top); [apply IH | reflexivity].
Qed.


(** ** The histogram of a row *)

(** C8: for a previous histogram and a row of the same length [W], the
    updated histogram has length [W] and holds, at each column, the
    previous value plus one where the row equals the target value and 0
    elsewhere; the histogram of the first row is the update of the
    all-zero histogram, 1 where the row equals the target and 0
    elsewhere. *)
Theorem next_hist_spec {V : Type} (eqb : V -> V -> bool)
    (prev : list Z) (row : list V) (value : V) (W : nat) :
  (forall a b, eqb a b = true <-> a = b) ->
  length prev = W -> length row = W ->
  length (next_hist eqb prev row value) = W /\
  (forall c el, nth_error row c = Some el ->
     (el = value -> nth c (next_hist eqb prev row value) 0 = nth c prev 0 + 1) /\
     (el <> value -> nth c (next_hist eqb prev row value) 0 = 0)) /\
  first_hist eqb row value = next_hist eqb (repeat 0 W) row value /\
  (forall c el, nth_error row c = Some el ->
     (el = value -> nth c (first_hist eqb row value) 0 = 1) /\
     (el <> value -> nth c (first_hist eqb row value) 0 = 0)).
Proof.
  intros Heq Hprev Hrow.
  assert (Hdec : forall el, (el = value -> eqb el value = true) /\
                            (el <> value -> eqb el value = false)).
  { intros el. split; [apply Heq|]. intros Hne.
    destruct (eqb el value) eqn:E; trivial. apply Heq in E. contradiction. }
  repeat split.
  - unfold next_hist. rewrite length_map, length_combine. lia.
  - intros E. assert (Hc : (c < length prev)%nat).
    { rewrite Hprev, <- Hrow. apply nth_error_Some. congruence. }
    rewrite (next_hist_nth V eqb value prev row c el Hc H).
    rewrite (proj1 (Hdec el) E). lia.
  - intros E. assert (Hc : (c < length prev)%nat).
    { rewrite Hprev, <- Hrow. apply nth_error_Some. congruence. }
    rewrite (next_hist_nth V eqb value prev row c el Hc H).
    now rewrite (proj2 (Hdec el) E).
  - rewrite <- Hrow. clear. unfold first_hist, next_hist.
    induction row as [|el row IH]; simpl; [reflexivity|].
    rewrite IH. destruct (eqb el value); reflexivity.
  - intros E. rewrite (first_hist_nth V eqb value row c el H).
    now rewrite (proj1 (Hdec el) E).
  - intros E. rewrite (first_hist_nth V eqb value row c el H).
    now rewrite (proj2 (Hdec el) E).
Qed.

Lemma next_hist_spec_witness :
  length [2; 0; 1] = 3%nat /\ length [7; 7; 5] = 3%nat /\
  length (next_hist Z.eqb [2; 0; 1] [7; 7; 5] 7) = 3%nat /\
  first_hist Z.eqb [7; 7; 5] 7 = next_hist Z.eqb (repeat 0 3) [7; 7; 5] 7.
Proof.
  split; [reflexivity|]. split; [reflexivity|].
  pose proof (next_hist_spec Z.eqb [2; 0; 1] [7; 7; 5] 7 3 Z.eqb_eq
                eq_refl eq_refl) as Hspec.
  split.
  - exact (proj1 Hspec).
  - exact (proj1 (proj2 (proj2 Hspec))).
Defined.

(** ** Concrete calls *)

(** C9: the three scenarios of the specification. *)
Theorem max_size_scenarios :
  max_size Z.eqb [[1; 1; 0]; [1; 1; 0]; [0; 0; 0]] 1 = ((2, 2), (0, 0)) /\
  max_size Z.eqb [[0; 1; 0]; [1; 1; 1]; [0; 1; 0]] 1 = ((1, 3), (1, 0)) /\
  max_size Z.eqb [[5]] 5 = ((1, 1), (0, 0)) /\
  fst (max_size Z.eqb [[5]] 9) = (0, 0).
Proof. repeat split. Qed.

(** C10: on a matrix with no row, for every target value, the call
    raises no error and returns the size (0, 0) with the position
    (1, 0). *)
Theorem max_size_no_rows {V : Type} (eqb : V -> V -> bool) (value : V) :
  call_max_size eqb [] value = Returns ((0, 0), (1, 0)).
Proof. reflexivity. Qed.

(** ** Malformed matrices *)

(** C5 as stated fails: the call on a matrix with no row does not raise
    [EmptyMatrix]. *)
Lemma no_rows_not_EmptyMatrix :
  call_max_size Z.eqb [] 0 <> Raises EmptyMatrix.
Proof. discriminate. Qed.

(** C5, amended: on a matrix with no row [next(it, [])] yields the empty
    row, the first histogram is empty, its scan leaves the stack empty and
    the flush has nothing to walk; the call raises no [EmptyMatrix] error
    and returns a size of area 0. *)
Theorem max_size_no_rows_no_error {V : Type} (eqb : V -> V -> bool)
    (value : V) :
  l_hist (init_locals eqb [] value) = [] /\
  max_rectangle_size [] = ((0, 0), 0) /\
  call_max_size eqb [] value <> Raises EmptyMatrix /\
  (exists r, call_max_size eqb [] value = Returns r /\ area (fst r) = 0).
Proof.
  repeat split.
  - discriminate.
  - exists ((0, 0), (1, 0)). split; reflexivity.
Qed.

(** C4 as stated fails: a matrix with rows of lengths 2 and 1 does not
    make the call raise [ShapeMismatch]. *)
Lemma ragged_not_ShapeMismatch :
  ~ (ragged [[1; 1]; [1]] ->
     call_max_size Z.eqb [[1; 1]; [1]] 1 = Raises ShapeMismatch).
Proof.
  intros H. assert (Hr : ragged [[1; 1]; [1]]).
  { exists [1; 1], [1]. simpl. repeat split; auto; discriminate. }
  specialize (H Hr). discriminate H.
Qed.

(** C4, amended: no call raises [ShapeMismatch], ragged matrix or not.
    The update pairs the columns with [zip], which stops at the shorter
    of the previous histogram and the row: the updated histogram has the
    smaller of the two lengths, and the call returns the result computed
    on the truncated histograms. *)
Theorem ragged_rows_truncate {V : Type} (eqb : V -> V -> bool)
    (mat : list (list V)) (value : V) :
  call_max_size eqb mat value <> Raises ShapeMismatch /\
  call_max_size eqb mat value = Returns (max_size eqb mat value) /\
  forall (hist : list Z) (row : list V),
    length (next_hist eqb hist row value) =
    Nat.min (length hist) (length row).
Proof.
  repeat split.
  - discriminate.
  - intros hist row. unfold next_hist.
    now rewrite length_map, length_combine.
Qed.

(** The call of the counterexample returns the size of the first row. *)
Lemma ragged_call_returns :
  call_max_size Z.eqb [[1; 1]; [1]] 1 = Returns ((1, 2), (0, 0)).
Proof. reflexivity. Qed.

(** ** Uniform matrices *)

Lemma scan_flat (h : Z) (n : nat) (best : size) :
  forall pos, scan pos (repeat h n) [mkInfo 0 h] best = ([mkInfo 0 h], best).
Proof.
  induction n as [|n IH]; intros pos; simpl; [reflexivity|].
  rewrite Z.ltb_irrefl. apply IH.
Qed.

(** A flat histogram of positive height is one frame, flushed as the full
    rectangle. *)
Lemma last_pos_repeat (h : Z) (n : nat) :
  last_pos (h :: repeat h n) + 1 = Z.of_nat (S n).
Proof. unfold last_pos. simpl length. rewrite repeat_length. lia. Qed.

Lemma max_rectangle_size_flat (h : Z) (n : nat) :
  0 < h -> (0 < n)%nat ->
  max_rectangle_size (repeat h n) = ((h, Z.of_nat n), 0).
Proof.
  intros Hh Hn. destruct n as [|n]; [lia|].
  unfold max_rectangle_size. simpl scan. rewrite scan_flat.
  cbn [repeat]. rewrite last_pos_repeat.
  unfold flush. cbn [rev app fold_left]. rewrite flush_step_eq.
  cbn [height start]. rewrite Z.sub_0_r. unfold max_by_area.
  assert (Ha : area (0, 0) < area (h, Z.of_nat (S n)))
    by (unfold area; cbn [fst snd]; nia).
  destruct (Z.ltb_spec (area (0, 0)) (area (h, Z.of_nat (S n)))); [|lia].
  reflexivity.
Qed.

(** An all-zero histogram leaves the initial size and start column. *)
Lemma max_rectangle_size_zeros (n : nat) :
  max_rectangle_size (repeat 0 n) = ((0, 0), 0).
Proof.
  destruct n as [|n]; [reflexivity|].
  unfold max_rectangle_size. simpl scan. rewrite scan_flat.
  unfold flush. cbn [rev app fold_left]. rewrite flush_step_eq.
  unfold max_by_area, area. cbn [fst snd height start].
  rewrite !Z.mul_0_l. reflexivity.
Qed.

Section Uniform.

Variable V : Type.
Variable eqb : V -> V -> bool.
Variable value : V.

Lemma first_hist_none (row : list V) :
  Forall (fun el => eqb el value = false) row ->
  first_hist eqb row value = repeat 0 (length row).
Proof.
  induction 1 as [|el row Hel _ IH]; simpl; [reflexivity|].
  now rewrite Hel, IH.
Qed.

Lemma next_hist_none (row : list V) :
  Forall (fun el => eqb el value = false) row ->
  forall hist, next_hist eqb hist row value =
               repeat 0 (Nat.min (length hist) (length row)).
Proof.
  unfold next_hist.
  induction 1 as [|el row Hel _ IH]; intros [|h hist]; simpl; trivial.
  now rewrite Hel, IH.
Qed.

Lemma first_hist_all (row : list V) :
  Forall (fun el => eqb el value = true) row ->
  first_hist eqb row value = repeat 1 (length row).
Proof.
  induction 1 as [|el row Hel _ IH]; simpl; [reflexivity|].
  now rewrite Hel, IH.
Qed.

Lemma next_hist_all (h : Z) (row : list V) :
  Forall (fun el => eqb el value = true) row ->
  next_hist eqb (repeat h (length row)) row value =
  repeat (1 + h) (length row).
Proof.
  unfold next_hist.
  induction 1 as [|el row Hel _ IH]; [reflexivity|].
  cbn [length repeat combine map fst snd]. now rewrite Hel, IH.
Qed.

(** The row loop when no cell equals the value: the locals never move. *)
Lemma fold_rows_none (rows : list (list V)) :
  Forall (Forall (fun el => eqb el value = false)) rows ->
  forall n counter, exists n',
    fold_left (row_step eqb value) rows
              (mkLocals (repeat 0 n) (0, 0) 0 0 counter) =
    mkLocals (repeat 0 n') (0, 0) 0 0 (counter + Z.of_nat (length rows)).
Proof.
  induction 1 as [|row rows Hrow _ IH]; intros n counter.
  - exists n. simpl. now rewrite Z.add_0_r.
  - cbn [fold_left]. unfold row_step at 2. cbn [l_hist l_max_size l_counter
      l_start_pos l_start_row].
    rewrite (next_hist_none row Hrow), max_rectangle_size_zeros.
    rewrite Z.ltb_irrefl.
    destruct (IH (Nat.min (length (repeat 0 n)) (length row)) (counter + 1))
      as [n' E].
    exists n'. rewrite E. f_equal. simpl length. lia.
Qed.

(** The row loop when every cell equals the value: each row improves the
    size by one full row. *)
Lemma fold_rows_all (W : nat) (rows : list (list V)) :
  (0 < W)%nat ->
  Forall (fun row => length row = W /\
                     Forall (fun el => eqb el value = true) row) rows ->
  forall r, 0 <= r ->
    fold_left (row_step eqb value) rows
              (mkLocals (repeat (r + 1) W) (r + 1, Z.of_nat W) 0 r r) =
    let r' := r + Z.of_nat (length rows) in
    mkLocals (repeat (r' + 1) W) (r' + 1, Z.of_nat W) 0 r' r'.
Proof.
  intros HW. induction 1 as [|row rows [Hlen Hrow] _ IH]; intros r Hr.
  - simpl. now rewrite Z.add_0_r.
  - assert (E : next_hist eqb (repeat (r + 1) W) row value =
                 repeat (r + 1 + 1) W).
    { rewrite <- Hlen. rewrite (next_hist_all (r + 1) row Hrow).
      f_equal. lia. }
    cbn [fold_left]. unfold row_step at 2. cbn [l_hist l_max_size l_counter
      l_start_pos l_start_row].
    rewrite E, max_rectangle_size_flat by lia.
    assert (Ha : area (r + 1, Z.of_nat W) < area (r + 1 + 1, Z.of_nat W))
      by (unfold area; cbn [fst snd]; nia).
    destruct (Z.ltb_spec (area (r + 1, Z.of_nat W))
                         (area (r + 1 + 1, Z.of_nat W))); [|lia].
    rewrite (IH (r + 1)) by lia. cbv zeta.
    replace (r + 1 + Z.of_nat (length rows))
      with (r + Z.of_nat (length (row :: rows))) by (simpl length; lia).
    reflexivity.
Qed.

End Uniform.

(** X1: when no cell of the matrix equals the value, whatever the shape
    of the matrix (empty, ragged), [max_size] returns the size (0, 0) with
    the position (1, 0): the reported top row is 1, not 0. *)
Theorem max_size_value_absent {V : Type} (eqb : V -> V -> bool)
    (mat : list (list V)) (value : V) :
  Forall (Forall (fun el => eqb el value = false)) mat ->
  max_size eqb mat value = ((0, 0), (1, 0)).
Proof.
  intros Hall. unfold max_size, run_rows, init_locals.
  assert (Hhd : Forall (fun el => eqb el value = false) (hd [] mat)).
  { destruct Hall; [constructor | assumption]. }
  assert (Htl : Forall (Forall (fun el => eqb el value = false)) (tl mat)).
  { destruct Hall; [constructor | assumption]. }
  rewrite (first_hist_none V eqb value _ Hhd), max_rectangle_size_zeros.
  destruct (fold_rows_none V eqb value (tl mat) Htl (length (hd [] mat)) 0)
    as [n' E].
  rewrite E. unfold position. cbn [l_hist l_max_size l_start_pos l_start_row
    fst snd]. rewrite repeat_length.
  destruct (0 =? Z.of_nat n'); reflexivity.
Qed.

Lemma max_size_value_absent_witness :
  Forall (Forall (fun el => Z.eqb el 7 = false)) [[1; 2; 3]; [4; 5]; []] /\
  max_size Z.eqb [[1; 2; 3]; [4; 5]; []] 7 = ((0, 0), (1, 0)).
Proof.
  assert (H : Forall (Forall (fun el => Z.eqb el 7 = false))
                     [[1; 2; 3]; [4; 5]; []])
    by (repeat constructor).
  split; [exact H|].
  exact (max_size_value_absent Z.eqb [[1; 2; 3]; [4; 5]; []] 7 H).
Defined.

(** X2: on a non-empty matrix of [H] rows of the same length [W >= 1]
    whose cells all equal the value, [max_size] returns the whole matrix:
    the size [(H, W)] at the position (0, 0). *)
Theorem max_size_all_target {V : Type} (eqb : V -> V -> bool)
    (mat : list (list V)) (value : V) (W : nat) :
  mat <> [] -> (0 < W)%nat ->
  Forall (fun row => length row = W /\
                     Forall (fun el => eqb el value = true) row) mat ->
  max_size eqb mat value =
  ((Z.of_nat (length mat), Z.of_nat W), (0, 0)).
Proof.
  intros Hne HW Hall. destruct mat as [|row rows]; [congruence|].
  inversion Hall as [|? ? [Hlen Hrow] Hrows]; subst.
  unfold max_size, run_rows, init_locals. cbn [hd tl].
  rewrite (first_hist_all V eqb value row Hrow).
  rewrite max_rectangle_size_flat by lia.
  pose proof (fold_rows_all V eqb value (length row) rows HW Hrows 0
                ltac:(lia)) as E.
  change (0 + 1) with 1 in E. rewrite E. cbv zeta. unfold position.
  cbn [l_hist l_max_size l_start_pos l_start_row fst snd].
  rewrite repeat_length, Z.eqb_refl. simpl length.
  repeat f_equal; lia.
Qed.

Lemma max_size_all_target_witness :
  max_size Z.eqb [[4; 4; 4]; [4; 4; 4]] 4 = ((2, 3), (0, 0)).
Proof.
  apply (max_size_all_target Z.eqb [[4; 4; 4]; [4; 4; 4]] 4 3).
  - discriminate.
  - lia.
  - repeat constructor.
Defined.

(** ** The row recorded by [max_size] *)

Section MatrixPosition.

Variable V : Type.
Variable eqb : V -> V -> bool.
Hypothesis eqb_eq : forall a b, eqb a b = true <-> a = b.

Variable mat : list (list V).
Variable value : V.
Variable W : nat.
Hypothesis rectangular : Forall (fun row => length row = W) mat.

(** A size of positive area found under the histogram of row [r] is that
    of a rectangle of [value] whose bottom row is [r]. *)
Lemma hist_attained_at (r : nat) (hist : list Z) :
  run_lengths mat value W r hist ->
  let sz := fst (max_rectangle_size hist) in
  0 < area sz ->
  0 < fst sz <= Z.of_nat r + 1 /\ 0 < snd sz /\
  exists left,
    (left + Z.to_nat (snd sz) <= W)%nat /\
    all_target mat value (Z.to_nat (Z.of_nat r + 1 - fst sz)) left
               (Z.to_nat (fst sz)) (Z.to_nat (snd sz)).
Proof.
  intros Hrl sz Hpos.
  pose proof (run_lengths_nonneg V mat value W r hist Hrl) as Hnn.
  destruct (max_rectangle_size_list hist Hnn) as [Hfit _].
  destruct Hrl as [Hlen Hruns]. fold sz in Hfit.
  destruct sz as [hh ww].
  destruct Hfit as (Hh & Hw & s & Hs & Hsw & Hb).
  unfold area in Hpos. cbn [fst snd] in *.
  assert (Hh1 : 0 < hh) by nia. assert (Hw1 : 0 < ww) by nia.
  assert (Hrun : forall c, (Z.to_nat s <= c < Z.to_nat s + Z.to_nat ww)%nat ->
            (Z.to_nat hh <= r + 1)%nat /\
            forall k, (k < Z.to_nat hh)%nat ->
              cell mat (r - k) c = Some value).
  { intros c Hc. apply Hruns; [lia|].
    specialize (Hb (Z.of_nat c) ltac:(lia)). unfold column in Hb.
    rewrite Nat2Z.id in Hb. lia. }
  destruct (Hrun (Z.to_nat s) ltac:(lia)) as [Hle _].
  repeat split; try lia.
  exists (Z.to_nat s). split; [lia|].
  intros r' c Hr' Hc. destruct (Hrun c Hc) as [_ Hk].
  replace r' with (r - (r - r'))%nat by lia. apply Hk. lia.
Qed.

Lemma row_pos_inv_first (row : list V) (rows : list (list V)) :
  mat = row :: rows -> row_pos_inv mat value W 0 (init_locals eqb mat value).
Proof.
  intros Emat.
  assert (Hrow : nth_error mat 0 = Some row) by (now rewrite Emat).
  pose proof (run_lengths_first V eqb eqb_eq mat value W rectangular
                row Hrow) as Hrl.
  assert (Hhd : hd [] mat = row) by (now rewrite Emat).
  unfold init_locals. rewrite Hhd.
  pose proof (hist_attained_at 0 _ Hrl) as Hat.
  destruct (max_rectangle_size (first_hist eqb row value)) as [ms sp].
  cbn [fst] in Hat. split; cbn [l_start_row l_max_size].
  - lia.
  - intros Hpos. specialize (Hat Hpos). exact Hat.
  - intros top left h w [Ht _] _ Hpos. simpl in Ht. nia.
Qed.

Lemma row_pos_inv_step (r : nat) (s : locals) (row : list V) :
  nth_error mat (S r) = Some row ->
  row_inv mat value W r s -> row_pos_inv mat value W r s ->
  row_pos_inv mat value W (S r) (row_step eqb value s row).
Proof.
  intros Hrow [Hcnt Hrl Hup _] [Hsr Hrect Hfirst].
  pose proof (run_lengths_next V eqb eqb_eq mat value W rectangular r
                (l_hist s) row Hrow Hrl) as Hrl'.
  pose proof (hist_attained_at (S r) _ Hrl') as Hat.
  unfold row_step.
  destruct (max_rectangle_size (next_hist eqb (l_hist s) row value))
    as [ms sp].
  cbn [fst] in Hat.
  destruct (Z.ltb_spec (area (l_max_size s)) (area ms)) as [Hlt|Hge].
  - split; cbn [l_start_row l_max_size].
    + lia.
    + intros Hpos. specialize (Hat Hpos). rewrite Hcnt.
      replace (Z.of_nat r + 1) with (Z.of_nat (S r)) by lia. exact Hat.
    + intros top left h w Hin Hall Hpos.
      assert (Hin' : inside (r + 1) W top left h w).
      { destruct Hin as [Ht Hl]. split; [lia | exact Hl]. }
      specialize (Hup top left h w Hin' Hall). lia.
  - split; cbn [l_start_row l_max_size]; trivial. lia.
Qed.

Lemma row_invs_fold (rest : list (list V)) :
  forall r s, skipn (S r) mat = rest ->
    row_inv mat value W r s -> row_pos_inv mat value W r s ->
    row_pos_inv mat value W (r + length rest)
                (fold_left (row_step eqb value) rest s).
Proof.
  induction rest as [|row rest IH]; intros r s Hskip Hinv Hpos; simpl.
  - now rewrite Nat.add_0_r.
  - apply skipn_cons_inv in Hskip. destruct Hskip as [Hrow Hskip].
    replace (r + S (length rest))%nat with (S r + length rest)%nat by lia.
    apply IH; trivial.
    + now apply (row_inv_step V eqb eqb_eq mat value W rectangular).
    + now apply row_pos_inv_step.
Qed.

Lemma row_pos_inv_run_rows :
  mat <> [] ->
  row_pos_inv mat value W (length mat - 1) (run_rows eqb mat value).
Proof.
  intros Hne. destruct (nonempty_cons mat Hne) as (row & rows & Emat).
  unfold run_rows.
  replace (length mat - 1)%nat with (0 + length (tl mat))%nat
    by (rewrite Emat; simpl; lia).
  apply row_invs_fold.
  - now rewrite Emat.
  - now apply (row_inv_first V eqb eqb_eq mat value W rectangular row rows).
  - now apply (row_pos_inv_first row rows).
Qed.

End MatrixPosition.

(** X3: on a non-empty rectangular matrix, when the returned size
    [(h, w)] has a positive area, the returned top row [y] is right:
    [0 <= y], [y + h <= H], and at some column a rectangle of that size
    with top row [y] lies inside the matrix and holds only the value.
    Only the returned column can be wrong. *)
Theorem max_size_top_row {V : Type} (eqb : V -> V -> bool)
    (mat : list (list V)) (value : V) (W : nat) :
  (forall a b, eqb a b = true <-> a = b) ->
  mat <> [] ->
  Forall (fun row => length row = W) mat ->
  let h := fst (fst (max_size eqb mat value)) in
  let w := snd (fst (max_size eqb mat value)) in
  let y := fst (snd (max_size eqb mat value)) in
  0 < h * w ->
  0 < h /\ 0 < w /\ 0 <= y /\ y + h <= Z.of_nat (length mat) /\
  exists left,
    (left + Z.to_nat w <= W)%nat /\
    all_target mat value (Z.to_nat y) left (Z.to_nat h) (Z.to_nat w).
Proof.
  intros Heq Hne Hrect h w y Hpos.
  destruct (row_pos_inv_run_rows V eqb Heq mat value W Hrect Hne)
    as [Hsr Hrc _].
  subst h w y. unfold max_size, position in *. cbn [fst snd] in *.
  destruct (Hrc Hpos) as (Hh & Hw & left & Hl & Hall).
  assert (HH : (0 < length mat)%nat).
  { destruct mat; [congruence | simpl; lia]. }
  repeat split; try lia.
  exists left. split; [exact Hl|].
  replace (l_start_row (run_rows eqb mat value) -
           fst (l_max_size (run_rows eqb mat value)) + 1)
    with (l_start_row (run_rows eqb mat value) + 1 -
          fst (l_max_size (run_rows eqb mat value))) by lia.
  exact Hall.
Qed.

Lemma max_size_top_row_witness :
  exists left,
    (left + 2 <= 4)%nat /\
    all_target [[0; 1; 1; 0]; [0; 1; 1; 0]] 1 0 left 2 2.
Proof.
  assert (Hne : [[0; 1; 1; 0]; [0; 1; 1; 0]] <> []) by discriminate.
  assert (Hrect : Forall (fun row : list Z => length row = 4%nat)
                         [[0; 1; 1; 0]; [0; 1; 1; 0]])
    by (repeat constructor).
  assert (Hpos : 0 < 2 * 2) by lia.
  exact (proj2 (proj2 (proj2 (proj2
    (max_size_top_row Z.eqb [[0; 1; 1; 0]; [0; 1; 1; 0]] 1 4
       Z.eqb_eq Hne Hrect Hpos))))).
Defined.

(** X4: on a non-empty rectangular matrix, when the returned size has a
    positive area and spans the full width [W], the returned position is
    exact: the column is 0 and the rectangle at the returned position
    holds only the value. *)
Theorem max_size_full_width {V : Type} (eqb : V -> V -> bool)
    (mat : list (list V)) (value : V) (W : nat) :
  (forall a b, eqb a b = true <-> a = b) ->
  mat <> [] ->
  Forall (fun row => length row = W) mat ->
  let h := fst (fst (max_size eqb mat value)) in
  let w := snd (fst (max_size eqb mat value)) in
  let y := fst (snd (max_size eqb mat value)) in
  let x := snd (snd (max_size eqb mat value)) in
  0 < h * w -> w = Z.of_nat W ->
  x = 0 /\
  all_target mat value (Z.to_nat y) (Z.to_nat x) (Z.to_nat h) (Z.to_nat w).
Proof.
  intros Heq Hne Hrect h w y x Hpos Hw.
  destruct (row_pos_inv_run_rows V eqb Heq mat value W Hrect Hne)
    as [Hsr Hrc _].
  destruct (row_inv_run_rows V eqb Heq mat value W Hrect Hne)
    as [_ [Hlen _] _ _].
  subst h w y x. unfold max_size, position in *. cbn [fst snd] in *.
  destruct (Hrc Hpos) as (Hh & Hw' & left & Hl & Hall).
  rewrite Hlen, Hw, Z.eqb_refl. split; [reflexivity|].
  assert (left = 0%nat) by lia. subst left.
  replace (l_start_row (run_rows eqb mat value) -
           fst (l_max_size (run_rows eqb mat value)) + 1)
    with (l_start_row (run_rows eqb mat value) + 1 -
          fst (l_max_size (run_rows eqb mat value))) by lia.
  rewrite <- Hw. exact Hall.
Qed.

Lemma max_size_full_width_witness :
  all_target [[0; 1; 0]; [1; 1; 1]; [0; 1; 0]] 1 1 0 1 3.
Proof.
  assert (Hne : [[0; 1; 0]; [1; 1; 1]; [0; 1; 0]] <> []) by discriminate.
  assert (Hrect : Forall (fun row : list Z => length row = 3%nat)
                         [[0; 1; 0]; [1; 1; 1]; [0; 1; 0]])
    by (repeat constructor).
  assert (Hpos : 0 < 1 * 3) by lia.
  exact (proj2 (max_size_full_width Z.eqb [[0; 1; 0]; [1; 1; 1]; [0; 1; 0]]
                  1 3 Z.eqb_eq Hne Hrect Hpos eq_refl)).
Defined.

(** X5: among the rectangles of the value that have the maximal area, the
    one [max_size] reports ends highest: every rectangle of the value
    whose area equals the returned, positive area has its bottom edge at
    or below the reported one, [y + h <= top + h']. *)
Theorem max_size_earliest_row {V : Type} (eqb : V -> V -> bool)
    (mat : list (list V)) (value : V) (W : nat) :
  (forall a b, eqb a b = true <-> a = b) ->
  mat <> [] ->
  Forall (fun row => length row = W) mat ->
  let h := fst (fst (max_size eqb mat value)) in
  let y := fst (snd (max_size eqb mat value)) in
  forall top left h' w',
    inside (length mat) W top left h' w' ->
    all_target mat value top left h' w' ->
    0 < Z.of_nat h' * Z.of_nat w' ->
    Z.of_nat h' * Z.of_nat w' = area (fst (max_size eqb mat value)) ->
    y + h <= Z.of_nat (top + h').
Proof.
  intros Heq Hne Hrect h y top left h' w' [Ht Hl] Hall Hpos Harea.
  destruct (row_pos_inv_run_rows V eqb Heq mat value W Hrect Hne)
    as [Hsr _ Hfirst].
  subst h y. unfold max_size, position in *. cbn [fst snd] in *.
  destruct (Z_le_gt_dec (l_start_row (run_rows eqb mat value) + 1)
                        (Z.of_nat (top + h'))) as [Hle|Hgt]; [lia|].
  assert (Hin : inside (Z.to_nat (l_start_row (run_rows eqb mat value))) W
                       top left h' w') by (split; [lia | exact Hl]).
  specialize (Hfirst top left h' w' Hin Hall Hpos). lia.
Qed.

Lemma max_size_earliest_row_witness :
  1 + 1 <= Z.of_nat (0 + 3).
Proof.
  assert (Hne : [[0; 1; 0]; [1; 1; 1]; [0; 1; 0]] <> []) by discriminate.
  assert (Hrect : Forall (fun row : list Z => length row = 3%nat)
                         [[0; 1; 0]; [1; 1; 1]; [0; 1; 0]])
    by (repeat constructor).
  assert (Hin : inside 3 3 0 1 3 1) by (unfold inside; lia).
  assert (Hall : all_target [[0; 1; 0]; [1; 1; 1]; [0; 1; 0]] 1 0 1 3 1).
  { intros r c Hr Hc. assert (c = 1%nat) by lia. subst c.
    destruct r as [|[|[|r]]]; try reflexivity; lia. }
  exact (max_size_earliest_row Z.eqb [[0; 1; 0]; [1; 1; 1]; [0; 1; 0]] 1 3
           Z.eqb_eq Hne Hrect 0%nat 1%nat 3%nat 1%nat Hin Hall
           ltac:(lia) eq_refl).
Defined.

(** ** The start column returned by [max_rectangle_size] *)

Section StartColumn.

Variable g : Z -> Z.

Lemma hang_pop (p st : Z) (top : Info) (rest : list Info) :
  hang g p st (top :: rest) -> hang g p (start top) rest.
Proof.
  intros (Hst & _ & Hlt & Hl). split; [lia|].
  inversion Hl as [f H0 | F T rest' Hg Hh Hs Hl']; subst; trivial.
  repeat split; trivial.
Qed.

Lemma scan_col_linked (p h : Z) :
  h = g p ->
  forall stack st best, hang g p st stack ->
    link_inv g (p + 1) (fst (scan_col p h st stack best)).
Proof.
  intros Hh. induction stack as [|top rest IH]; intros st best Hhang.
  - destruct Hhang as [Hst ->]. simpl.
    replace (p + 1 - 1) with p by lia.
    repeat split; [exact Hh | lia | now constructor].
  - cbn [scan_col].
    destruct (Z.ltb_spec (height top) h) as [Hlt|Hge].
    + destruct Hhang as (Hst & Hg & Hs & Hl). simpl.
      replace (p + 1 - 1) with p by lia.
      repeat split; [exact Hh | lia | now constructor].
    + destruct (Z.ltb_spec h (height top)) as [Hlt|Hge'].
      * apply IH. now apply (hang_pop p st).
      * destruct Hhang as (Hst & Hg & Hs & Hl). simpl.
        replace (p + 1 - 1) with p by lia.
        repeat split; [lia | lia | exact Hl].
Qed.

Lemma link_inv_enter (p : Z) (stack : list Info) :
  link_inv g p stack -> hang g p p stack.
Proof.
  destruct stack as [|top rest]; simpl.
  - intros ->. split; [lia | reflexivity].
  - intros (Hh & Hs & Hl). repeat split; [lia | now rewrite Hh | lia | exact Hl].
Qed.

Lemma scan_linked (l : list Z) :
  forall p stack best, columns_from g p l -> link_inv g p stack ->
    link_inv g (p + Z.of_nat (length l)) (fst (scan p l stack best)).
Proof.
  induction l as [|h l IH]; intros p stack best Hcols Hinv; simpl scan.
  - simpl. now rewrite Z.add_0_r.
  - apply columns_from_cons in Hcols. destruct Hcols as [Hh Hcols].
    pose proof (scan_col_linked p h Hh stack p best
                  (link_inv_enter p stack Hinv)) as Hstep.
    destruct (scan_col p h p stack best) as [stack' best'].
    replace (p + Z.of_nat (length (h :: l)))
      with (p + 1 + Z.of_nat (length l)) by (simpl length; lia).
    now apply IH.
Qed.

Hypothesis g_nonneg : forall c, 0 <= g c.

(** The start column depends on the end of the histogram alone: it is the
    first column of the longest run of columns, ending at the last one,
    that are all at least as high as the last one. *)
Lemma start_pos_columns (histogram : list Z) :
  columns_from g 0 histogram -> histogram <> [] ->
  let W := Z.of_nat (length histogram) in
  let s := snd (max_rectangle_size histogram) in
  0 <= s < W /\ bounded g s W (g (W - 1)) /\ (s = 0 \/ g (s - 1) < g (W - 1)).
Proof.
  intros Hcols Hne W s.
  pose proof (scan_inv_all g g_nonneg histogram 0 [] (0, 0) ltac:(lia) Hcols
                (scan_inv_init g)) as Hinv.
  pose proof (scan_linked histogram 0 [] (0, 0) Hcols eq_refl) as Hlink.
  subst s. unfold max_rectangle_size.
  destruct (scan 0 histogram [] (0, 0)) as [stack best].
  rewrite flush_start_pos. cbn [fst snd] in Hinv, Hlink. fold W in Hinv, Hlink.
  assert (HW : 0 < W).
  { unfold W. destruct histogram; [congruence | simpl length; lia]. }
  destruct stack as [|top rest]; [simpl in Hlink; lia|].
  destruct Hlink as (Hh & Hs & Hl). rewrite Z.add_0_l in Hh.
  destruct Hinv as [_ Hf _ _]. inversion Hf as [|? ? (Hst & _ & Hb) _]; subst.
  rewrite <- Hh. repeat split; try lia; trivial.
  inversion Hl as [f H0 | F T rest' Hg Hlt Hss Hl']; subst; [now left|].
  right. lia.
Qed.

End StartColumn.

(** X6: on a non-empty histogram of non-negative heights, the start
    column [s] returned by [max_rectangle_size] is fixed by the end of the
    histogram, not by the largest rectangle: every column from [s] to the
    last is at least as high as the last column, and [s] is 0 or the
    column before [s] is lower than the last column. *)
Theorem max_rectangle_size_start_pos (histogram : list Z) :
  Forall (fun h => 0 <= h) histogram -> histogram <> [] ->
  let W := Z.of_nat (length histogram) in
  let s := snd (max_rectangle_size histogram) in
  let last := column histogram (W - 1) in
  0 <= s < W /\
  (forall c, s <= c < W -> last <= column histogram c) /\
  (s = 0 \/ column histogram (s - 1) < last).
Proof.
  intros Hall Hne.
  exact (start_pos_columns (column histogram) (column_nonneg histogram Hall)
           histogram (columns_from_column histogram) Hne).
Qed.

Lemma max_rectangle_size_start_pos_witness :
  snd (max_rectangle_size [0; 2; 2; 3; 3; 3; 3]) = 3 /\
  (3 = 0 \/ column [0; 2; 2; 3; 3; 3; 3] (3 - 1) < 3).
Proof.
  assert (Hall : Forall (fun h => 0 <= h) [0; 2; 2; 3; 3; 3; 3])
    by (repeat constructor; lia).
  assert (Hne : [0; 2; 2; 3; 3; 3; 3] <> []) by discriminate.
  split; [reflexivity|].
  exact (proj2 (proj2
    (max_rectangle_size_start_pos [0; 2; 2; 3; 3; 3; 3] Hall Hne))).
Defined.

(** ** [sign] and [check_yes] *)

(** X7: [sign] never returns 0: it is 1 at 0 and at every positive
    number, -1 at every negative number, so it is the signum away from 0
    and [sign(x) * abs(x) = x] everywhere. *)
Theorem sign_abs (x : Z) :
  sign x * Z.abs x = x /\
  (sign x = 1 \/ sign x = -1) /\
  (0 <= x <-> sign x = 1) /\
  (x <> 0 -> sign x = Z.sgn x).
Proof.
  unfold sign. destruct (Z.leb_spec 0 x); repeat split; try lia.
Qed.

Lemma lower_ascii_y (c : ascii) :
  lower_ascii c = "y"%char -> c = "y"%char \/ c = "Y"%char.
Proof.
  destruct c as [[|] [|] [|] [|] [|] [|] [|] [|]]; vm_compute;
    intros H; try discriminate H; auto.
Qed.

Lemma lower_ascii_e (c : ascii) :
  lower_ascii c = "e"%char -> c = "e"%char \/ c = "E"%char.
Proof.
  destruct c as [[|] [|] [|] [|] [|] [|] [|] [|]]; vm_compute;
    intros H; try discriminate H; auto.
Qed.

Lemma lower_ascii_s (c : ascii) :
  lower_ascii c = "s"%char -> c = "s"%char \/ c = "S"%char.
Proof.
  destruct c as [[|] [|] [|] [|] [|] [|] [|] [|]]; vm_compute;
    intros H; try discriminate H; auto.
Qed.

Lemma lower_cons_inv (s : string) (c : ascii) (t : string) :
  lower s = String c t ->
  exists c' t', s = String c' t' /\ lower_ascii c' = c /\ lower t' = t.
Proof.
  destruct s as [|c' t']; simpl; intros H; [discriminate H|].
  injection H as H1 H2. eauto.
Qed.

Lemma lower_empty_inv (s : string) : lower s = EmptyString -> s = EmptyString.
Proof. destruct s; simpl; [reflexivity | discriminate]. Qed.

(** X8: [check_yes] accepts exactly the ten spellings of [y] and [yes] in
    upper and lower case; nothing is stripped, so an answer with a space
    or a newline is refused. *)
Theorem check_yes_exactly (answer : string) :
  check_yes answer = true <->
  In answer ["y"; "Y"; "yes"; "yeS"; "yEs"; "yES";
             "Yes"; "YeS"; "YEs"; "YES"]%string.
Proof.
  split.
  - unfold check_yes. cbn [existsb]. rewrite !orb_true_iff, !String.eqb_eq.
    intros [H | [H | H]]; [| |discriminate H].
    + apply lower_cons_inv in H. destruct H as (c & t & -> & Hc & Ht).
      apply lower_empty_inv in Ht. subst t.
      destruct (lower_ascii_y c Hc) as [-> | ->]; simpl; auto.
    + apply lower_cons_inv in H. destruct H as (c1 & t1 & -> & Hc1 & H).
      apply lower_cons_inv in H. destruct H as (c2 & t2 & -> & Hc2 & H).
      apply lower_cons_inv in H. destruct H as (c3 & t3 & -> & Hc3 & H).
      apply lower_empty_inv in H. subst t3.
      destruct (lower_ascii_y c1 Hc1) as [-> | ->];
        destruct (lower_ascii_e c2 Hc2) as [-> | ->];
        destruct (lower_ascii_s c3 Hc3) as [-> | ->]; simpl; tauto.
  - intros H. repeat (destruct H as [<- | H]; [reflexivity|]). destruct H.
Qed.

(** ** Strings: prefixes, suffixes and occurrences *)

Lemma prefix_app (p s : string) :
  String.prefix p s = true <-> exists post, s = (p ++ post)%string.
Proof.
  revert s. induction p as [|a p IH]; intros [|b s]; simpl.
  - split; [intros _; now exists ""%string | reflexivity].
  - split; [intros _; now exists (String b s) | reflexivity].
  - split; [discriminate | intros [post H]; discriminate H].
  - destruct (ascii_dec a b) as [->|Hne].
    + rewrite IH. split; intros [post H]; exists post.
      * now rewrite H.
      * now injection H.
    + split; [discriminate|]. intros [post H]. injection H as H1 H2.
      congruence.
Qed.

Lemma append_cons_inv (pre suf : string) (c : ascii) (s : string) :
  String c s = (pre ++ suf)%string ->
  (pre = EmptyString /\ suf = String c s) \/
  exists pre', pre = String c pre' /\ s = (pre' ++ suf)%string.
Proof.
  destruct pre as [|c' pre'].
  - intros H. left. split; [reflexivity | now rewrite H].
  - intros H. injection H as -> ->. right. now exists pre'.
Qed.

Lemma append_nil_inv (pre suf : string) :
  EmptyString = (pre ++ suf)%string -> pre = EmptyString /\ suf = EmptyString.
Proof.
  destruct pre as [|c pre]; intros H; [|discriminate H].
  split; [reflexivity | now rewrite H].
Qed.

Lemma endswith_app (s suf : string) :
  endswith s suf = true <-> exists pre, s = (pre ++ suf)%string.
Proof.
  induction s as [|c s IH]; cbn [endswith].
  - destruct (String.eqb_spec "" suf) as [<-|Hne]; cbv iota.
    + split; [intros _; now exists ""%string | reflexivity].
    + split; [intros H; discriminate H|].
      intros [pre H]. apply append_nil_inv in H. destruct H as [_ H].
      congruence.
  - destruct (String.eqb_spec (String c s) suf) as [<-|Hne]; cbv iota.
    + split; [intros _; now exists ""%string | reflexivity].
    + rewrite IH. split.
      * intros [pre ->]. now exists (String c pre).
      * intros [pre H]. apply append_cons_inv in H.
        destruct H as [[_ H] | (pre' & _ & H)]; [congruence|].
        now exists pre'.
Qed.

(** [sub] occurs in [s]. *)
Lemma find_from_occurs (s sub : string) :
  forall i, 0 <= i ->
    (find_from s sub i = -1 /\
     ~ exists pre post, s = (pre ++ sub ++ post)%string) \/
    (i <= find_from s sub i /\
     exists pre post, s = (pre ++ sub ++ post)%string).
Proof.
  induction s as [|c s IH]; intros i Hi; cbn [find_from].
  - destruct (String.prefix sub "") eqn:E.
    + right. split; [lia|]. apply prefix_app in E. destruct E as [post E].
      exists ""%string, post. exact E.
    + left. split; [reflexivity|]. intros (pre & post & H).
      destruct pre; [|discriminate H]. simpl in H.
      assert (String.prefix sub "" = true)
        by (apply prefix_app; now exists post).
      congruence.
  - destruct (String.prefix sub (String c s)) eqn:E.
    + right. split; [lia|]. apply prefix_app in E. destruct E as [post E].
      exists ""%string, post. exact E.
    + destruct (IH (i + 1) ltac:(lia)) as [[H1 H2] | [H1 (pre & post & H2)]].
      * left. split; [exact H1|]. intros ([|c' pre] & post & H); simpl in H.
        -- assert (String.prefix sub (String c s) = true)
             by (apply prefix_app; now exists post).
           congruence.
        -- injection H as _ H. apply H2. now exists pre, post.
      * right. split; [lia|]. exists (String c pre), post. simpl.
        now rewrite H2.
Qed.

Lemma find_occurs (s sub : string) :
  0 <= find s sub <-> exists pre post, s = (pre ++ sub ++ post)%string.
Proof.
  unfold find.
  destruct (find_from_occurs s sub 0 ltac:(lia)) as [[H1 H2] | [H1 H2]].
  - rewrite H1. split; [lia | intros H; contradiction].
  - split; [intros _; exact H2 | intros _; exact H1].
Qed.

(** ** [find_files] and [find_folders] *)

Lemma find_files_inner (keyword : option string) (suffix : extensions)
    (dirPath : string) (dirNames fileNames : list string) :
  forall output,
    find_files_dir keyword suffix output (dirPath, dirNames, fileNames) =
    output ++
    (if keyword_in keyword dirPath
     then map (path_join dirPath)
              (filter (fun f => check_ext f suffix) fileNames)
     else []).
Proof.
  unfold find_files_dir, keyword_in.
  induction fileNames as [|f fs IH]; intros output; cbn [fold_left].
  - destruct keyword as [kw|]; [destruct (0 <=? find dirPath kw)|];
      simpl; now rewrite app_nil_r.
  - rewrite IH. destruct keyword as [kw|].
    + destruct (Z.ltb_spec (find dirPath kw) 0) as [Hlt|Hge];
        destruct (Z.ltb_spec 0 (find dirPath kw)) as [Hpos|Hnp];
        destruct (Z.leb_spec 0 (find dirPath kw)) as [Hle|Hgt];
        try lia; cbn [andb negb filter];
        try (destruct (check_ext f suffix); cbn [map];
             rewrite <- ?app_assoc; reflexivity).
    + cbn [andb filter]. destruct (check_ext f suffix); cbn [map];
        rewrite <- ?app_assoc; reflexivity.
Qed.

Lemma find_files_outer (keyword : option string) (suffix : extensions)
    (walk : list walk_entry) :
  forall output,
    fold_left (find_files_dir keyword suffix) walk output =
    output ++
    flat_map (fun e : walk_entry =>
                if keyword_in keyword (fst (fst e))
                then map (path_join (fst (fst e)))
                         (filter (fun f => check_ext f suffix) (snd e))
                else []) walk.
Proof.
  induction walk as [|[[d ds] fs] walk IH]; intros output; cbn [fold_left].
  - simpl. now rewrite app_nil_r.
  - rewrite find_files_inner, IH. cbn [flat_map fst snd].
    now rewrite app_assoc.
Qed.

Lemma keyword_in_occurs (keyword : option string) (name : string) :
  keyword_in keyword name = true <->
  (keyword = None \/
   exists kw pre post,
     keyword = Some kw /\ name = (pre ++ kw ++ post)%string).
Proof.
  unfold keyword_in. destruct keyword as [kw|].
  - rewrite Z.leb_le, find_occurs. split.
    + intros (pre & post & H). right. now exists kw, pre, post.
    + intros [H | (kw' & pre & post & H & ->)]; [discriminate H|].
      injection H as <-. now exists pre, post.
  - split; [now left | reflexivity].
Qed.

(** X9: [find_files] lists, in the order of the walk, the files whose
    name ends with the suffix and whose directory path contains the
    keyword (every directory when there is no keyword), each joined to its
    directory path.  The [dirmatch] flag changes nothing: a directory
    whose path starts with the keyword is kept like any other that
    contains it. *)
Theorem find_files_lists (walk : list walk_entry) (keyword : option string)
    (suffix : extensions) :
  find_files walk keyword suffix =
  flat_map (fun e : walk_entry =>
              if keyword_in keyword (fst (fst e))
              then map (path_join (fst (fst e)))
                       (filter (fun f => check_ext f suffix) (snd e))
              else []) walk /\
  forall path,
    In path (find_files walk keyword suffix) <->
    exists d ds fs f,
      In (d, ds, fs) walk /\ In f fs /\ check_ext f suffix = true /\
      (keyword = None \/
       exists kw pre post,
         keyword = Some kw /\ d = (pre ++ kw ++ post)%string) /\
      path = path_join d f.
Proof.
  assert (E : find_files walk keyword suffix =
              flat_map (fun e : walk_entry =>
                if keyword_in keyword (fst (fst e))
                then map (path_join (fst (fst e)))
                         (filter (fun f => check_ext f suffix) (snd e))
                else []) walk).
  { unfold find_files. now rewrite find_files_outer. }
  split; [exact E|]. intros path. rewrite E, in_flat_map. split.
  - intros ([[d ds] fs] & Hin & Hp). cbn [fst snd] in Hp.
    destruct (keyword_in keyword d) eqn:Hk; [|destruct Hp].
    apply in_map_iff in Hp. destruct Hp as (f & <- & Hf).
    apply filter_In in Hf. destruct Hf as [Hf Hext].
    exists d, ds, fs, f. repeat split; trivial.
    now apply keyword_in_occurs.
  - intros (d & ds & fs & f & Hin & Hf & Hext & Hk & ->).
    exists (d, ds, fs). split; [exact Hin|]. cbn [fst snd].
    apply keyword_in_occurs in Hk. rewrite Hk.
    apply in_map. apply filter_In. now split.
Qed.

(** X10: [find_folders] raises [IndexError] when the walk yields nothing
    (the directory does not exist); otherwise it returns folders of the
    first entry only, the top directory: those whose name contains the
    keyword, all of them when there is no keyword. *)
Theorem find_folders_top (keyword : option string) :
  find_folders [] keyword = Raised IndexError /\
  forall d ds fs rest,
    exists dirs,
      find_folders ((d, ds, fs) :: rest) keyword = Value dirs /\
      forall x, In x dirs <->
        In x ds /\
        (keyword = None \/
         exists kw pre post,
           keyword = Some kw /\ x = (pre ++ kw ++ post)%string).
Proof.
  split; [reflexivity|].
  intros d ds fs rest. unfold find_folders. cbn [map fst snd].
  eexists. split; [reflexivity|]. intros x.
  rewrite <- keyword_in_occurs. unfold keyword_in.
  destruct keyword as [kw|].
  - now rewrite filter_In.
  - tauto.
Qed.

(** ** [path_suffix] *)

Lemma split_on_nonempty (sep : ascii) (s : string) : split_on sep s <> [].
Proof.
  destruct s as [|c s]; simpl; [discriminate|].
  destruct (Ascii.eqb c sep); [discriminate|].
  destruct (split_on sep s); discriminate.
Qed.

Lemma split_on_lacks (sep : ascii) (s : string) :
  Forall (fun w => lacks sep w = true) (split_on sep s).
Proof.
  induction s as [|c s IH]; simpl.
  - now constructor.
  - destruct (Ascii.eqb c sep) eqn:E.
    + now constructor.
    + destruct (split_on sep s) as [|w ws]; constructor; simpl;
        try rewrite E; trivial.
      * now inversion IH.
      * now inversion IH.
Qed.

Lemma length_split_on (sep : ascii) (s : string) :
  length (split_on sep s) = S (count_char sep s).
Proof.
  induction s as [|c s IH]; simpl; [reflexivity|].
  destruct (Ascii.eqb c sep); simpl; [now rewrite IH|].
  pose proof (split_on_nonempty sep s) as Hne.
  destruct (split_on sep s) as [|w ws]; [congruence|]. exact IH.
Qed.

Lemma append_assoc (x y z : string) :
  ((x ++ y) ++ z)%string = (x ++ y ++ z)%string.
Proof.
  induction x as [|c x IH]; [reflexivity|].
  change (String c ((x ++ y) ++ z) = String c (x ++ y ++ z))%string.
  now rewrite IH.
Qed.

Lemma append_nil_r (x : string) : (x ++ "")%string = x.
Proof.
  induction x as [|c x IH]; [reflexivity|].
  change (String c (x ++ "") = String c x)%string. now rewrite IH.
Qed.

Lemma join_with_cons (sep x : string) (l : list string) :
  l <> [] -> join_with sep (x :: l) = (x ++ sep ++ join_with sep l)%string.
Proof. destruct l; [congruence | reflexivity]. Qed.

Lemma join_split (sep : ascii) (s : string) :
  join_with (String sep "") (split_on sep s) = s.
Proof.
  induction s as [|c s IH]; [reflexivity|]. cbn [split_on].
  pose proof (split_on_nonempty sep s) as Hne.
  destruct (Ascii.eqb_spec c sep) as [->|Hc].
  - rewrite join_with_cons by exact Hne. rewrite IH. reflexivity.
  - destruct (split_on sep s) as [|w ws]; [congruence|].
    destruct ws as [|w' ws].
    + cbn [join_with] in *. now rewrite IH.
    + rewrite join_with_cons in * by discriminate.
      rewrite <- IH. reflexivity.
Qed.

Lemma join_with_app (sep : string) (l1 l2 : list string) :
  l1 <> [] -> l2 <> [] ->
  join_with sep (l1 ++ l2) =
  (join_with sep l1 ++ sep ++ join_with sep l2)%string.
Proof.
  intros H1 H2. induction l1 as [|x l1 IH]; [congruence|].
  destruct l1 as [|y l1].
  - cbn [app]. now rewrite join_with_cons.
  - change ((x :: y :: l1) ++ l2) with (x :: ((y :: l1) ++ l2)).
    rewrite join_with_cons by discriminate.
    rewrite IH by discriminate.
    rewrite (join_with_cons sep x (y :: l1)) by discriminate.
    rewrite !append_assoc. reflexivity.
Qed.

Lemma lacks_app (sep : ascii) (x y : string) :
  lacks sep (x ++ y) = lacks sep x && lacks sep y.
Proof.
  induction x as [|c x IH]; simpl; [reflexivity|].
  now rewrite IH, andb_assoc.
Qed.

Lemma lacks_not_endswith (a : string) :
  lacks "/" a = true -> endswith a "/" = false.
Proof.
  intros Hl. destruct (endswith a "/") eqn:E; [|reflexivity].
  apply endswith_app in E. destruct E as [pre ->].
  rewrite lacks_app in Hl. simpl in Hl. now rewrite andb_false_r in Hl.
Qed.

Lemma lacks_not_startswith (w t : string) :
  lacks "/" w = true -> (w = EmptyString -> t = EmptyString) ->
  startswith (w ++ t) "/" = false.
Proof.
  intros Hl Ht. unfold startswith.
  destruct (String.prefix "/" (w ++ t)) eqn:E; [|reflexivity].
  apply prefix_app in E. destruct E as [post E].
  destruct w as [|c w].
  - rewrite (Ht eq_refl) in E. discriminate E.
  - cbn [append] in E. injection E as -> _.
    cbn [lacks] in Hl. rewrite Ascii.eqb_refl in Hl. discriminate Hl.
Qed.

(** Joining a component in front of a suffix that does not start with a
    slash. *)
Lemma path_join_component (a b : string) :
  lacks "/" a = true -> startswith b "/" = false ->
  path_join a b = if nonempty a then (a ++ "/" ++ b)%string else b.
Proof.
  intros Ha Hb. unfold path_join, nonempty. rewrite Hb.
  destruct (String.eqb_spec a "") as [->|Hne]; [reflexivity|].
  now rewrite (lacks_not_endswith a Ha).
Qed.

Lemma joined_cons (x : string) (F : list string) (last : string) :
  join_with "/" (filter nonempty (x :: F) ++ [last]) =
  if nonempty x
  then (x ++ "/" ++ join_with "/" (filter nonempty F ++ [last]))%string
  else join_with "/" (filter nonempty F ++ [last]).
Proof.
  cbn [filter]. destruct (nonempty x); [|reflexivity].
  cbn [app join_with].
  destruct (filter nonempty F ++ [last]) eqn:E; [|reflexivity].
  apply app_eq_nil in E. destruct E as [_ E]. discriminate E.
Qed.

Lemma joined_not_startswith (F : list string) (last : string) :
  Forall (fun w => lacks "/" w = true) F -> lacks "/" last = true ->
  startswith (join_with "/" (filter nonempty F ++ [last])) "/" = false.
Proof.
  intros HF Hl. induction HF as [|x F Hx _ IH].
  - simpl. rewrite <- (append_nil_r last).
    exact (lacks_not_startswith last "" Hl (fun _ => eq_refl)).
  - rewrite joined_cons. destruct (nonempty x) eqn:E; [|exact IH].
    apply lacks_not_startswith; trivial.
    intros ->. discriminate E.
Qed.

(** The loop over the components in front of the last one, read from the
    end of the list. *)
Lemma path_suffix_loop (splits : list string) (last : string) :
  Forall (fun w => lacks "/" w = true) splits ->
  forall rfront rest,
    rev splits = last :: rfront ++ rest ->
    fold_left (path_suffix_step splits) (seq 2 (length rfront)) (Value last) =
    Value (join_with "/" (filter nonempty (rev rfront) ++ [last])).
Proof.
  intros Hlacks.
  assert (Hrev : Forall (fun w => lacks "/" w = true) (rev splits))
    by (apply Forall_rev; exact Hlacks).
  induction rfront as [|x rf IH] using rev_ind; intros rest E.
  - reflexivity.
  - rewrite length_app, Nat.add_comm. cbn [length Nat.add].
    rewrite seq_S, fold_left_app. cbn [fold_left].
    rewrite (IH ([x] ++ rest)) by (now rewrite E, <- app_assoc).
    unfold path_suffix_step, from_end. rewrite E.
    replace (2 + length rf - 1)%nat with (S (length rf)) by lia.
    cbn [nth_error]. rewrite <- app_assoc.
    rewrite nth_error_app2 by lia. rewrite Nat.sub_diag. cbn [app nth_error].
    rewrite E in Hrev. inversion Hrev as [|? ? Hl Hrest]; subst.
    apply Forall_app in Hrest. destruct Hrest as [Hfront _].
    apply Forall_app in Hfront. destruct Hfront as [Hrf Hx].
    inversion Hx as [|? ? Hx' _]; subst.
    rewrite path_join_component; trivial.
    + rewrite rev_app_distr. cbn [rev app]. now rewrite joined_cons.
    + apply joined_not_startswith; trivial. now apply Forall_rev.
Qed.

Lemma path_suffix_step_raised (splits : list string) (e : py_exception)
    (l : list nat) :
  fold_left (path_suffix_step splits) l (Raised e) = Raised e.
Proof. induction l as [|i l IH]; [reflexivity | exact IH]. Qed.

Lemma path_suffix_value_of (path : string) (level : Z)
    (pre front : list string) (last : string) :
  split_on "/" path = pre ++ front ++ [last] ->
  length front = Z.to_nat (level - 1) ->
  path_suffix path level =
  Value (join_with "/" (filter nonempty front ++ [last])).
Proof.
  intros E Hlen. unfold path_suffix.
  assert (Erev : rev (split_on "/" path) = last :: rev front ++ rev pre).
  { rewrite E, !rev_app_distr. reflexivity. }
  unfold from_end. rewrite Erev. cbn [Nat.sub nth_error].
  rewrite <- Hlen, <- length_rev.
  rewrite (path_suffix_loop _ last (split_on_lacks "/" path) (rev front)
             (rev pre) Erev).
  now rewrite rev_involutive.
Qed.

(** X11: for any split of the components of [path] as
    [pre ++ front ++ [last]] with [level - 1] components in [front] (none
    when [level < 2]), [path_suffix] returns the non-empty components of
    [front] and [last], joined by slashes: empty components, as left by a
    doubled or a leading slash, are dropped.  When [front] has no empty
    component, the result is a suffix of [path]. *)
Theorem path_suffix_value (path : string) (level : Z)
    (pre front : list string) (last : string) :
  split_on "/" path = pre ++ front ++ [last] ->
  length front = Z.to_nat (level - 1) ->
  path_suffix path level =
    Value (join_with "/" (filter nonempty front ++ [last])) /\
  (forallb nonempty front = true ->
   exists r, path_suffix path level = Value r /\ endswith path r = true).
Proof.
  intros E Hlen.
  pose proof (path_suffix_value_of path level pre front last E Hlen) as Hv.
  split; [exact Hv|]. intros Hne. eexists. split; [exact Hv|].
  assert (Hf : filter nonempty front = front).
  { clear -Hne. induction front as [|x f IH]; [reflexivity|].
    simpl in *. apply andb_true_iff in Hne. destruct Hne as [Hx Hf].
    now rewrite Hx, IH. }
  rewrite Hf. apply endswith_app.
  pose proof (join_split "/" path) as Hj. rewrite E in Hj.
  destruct pre as [|p pre].
  - exists ""%string. simpl in Hj. now rewrite Hj.
  - rewrite join_with_app in Hj;
      [|discriminate | destruct front; discriminate].
    exists (join_with "/" (p :: pre) ++ "/")%string.
    rewrite <- Hj. now rewrite append_assoc.
Qed.

Lemma path_suffix_value_witness :
  path_suffix "data//raw/a.json" 3 = Value "raw/a.json"%string /\
  path_suffix "/usr/lib" 3 = Value "usr/lib"%string.
Proof.
  split.
  - exact (proj1 (path_suffix_value "data//raw/a.json" 3
                    ["data"%string] [""%string; "raw"%string]
                    "a.json" eq_refl eq_refl)).
  - exact (proj1 (path_suffix_value "/usr/lib" 3
                    [] [""%string; "usr"%string]
                    "lib" eq_refl eq_refl)).
Defined.

(** X12: [path_suffix] raises [IndexError] exactly when [level] exceeds
    the number of components of [path], one more than its number of
    slashes; for every smaller level, also 0 or negative, it returns. *)
Theorem path_suffix_error (path : string) (level : Z) :
  path_suffix path level = Raised IndexError <->
  Z.of_nat (S (count_char "/" path)) < level.
Proof.
  rewrite <- (length_split_on "/" path).
  pose proof (split_on_nonempty "/" path) as Hne.
  destruct (exists_last Hne) as (body & last & E).
  assert (Hn : length (split_on "/" path) = S (length body))
    by (rewrite E, length_app; simpl; lia).
  destruct (Z_lt_le_dec (Z.of_nat (length (split_on "/" path))) level)
    as [Hlt|Hle].
  - split; [intros _; exact Hlt | intros _].
    unfold path_suffix.
    assert (Erev : rev (split_on "/" path) = last :: rev body ++ []).
    { rewrite E, rev_app_distr, app_nil_r. reflexivity. }
    unfold from_end. rewrite Erev. cbn [Nat.sub nth_error].
    replace (Z.to_nat (level - 1))
      with (length (rev body) + S (Z.to_nat (level - 1) - S (length body)))%nat
      by (rewrite length_rev; lia).
    rewrite seq_app, fold_left_app.
    rewrite (path_suffix_loop _ last (split_on_lacks "/" path) (rev body)
               [] Erev).
    cbn [seq fold_left]. unfold path_suffix_step at 2, from_end.
    rewrite Erev, app_nil_r.
    replace (2 + length (rev body) - 1)%nat with (S (length (rev body)))
      by lia.
    cbn [nth_error].
    rewrite (proj2 (nth_error_None (rev body) (length (rev body))))
      by lia.
    apply path_suffix_step_raised.
  - split; [|lia]. intros Hr.
    set (k := Z.to_nat (level - 1)).
    assert (Hk : (k <= length body)%nat) by (unfold k; lia).
    rewrite <- (firstn_skipn (length body - k) body) in E.
    rewrite <- app_assoc in E.
    rewrite (path_suffix_value_of path level _ _ last E) in Hr.
    + discriminate Hr.
    + rewrite length_skipn. unfold k. lia.
Qed.

(** ** [convert_cats] *)

Lemma set_nth_app_here {A : Type} (P R : list A) (a x : A) :
  set_nth (P ++ a :: R) (length P) x = P ++ x :: R.
Proof. induction P as [|p P IH]; simpl; [reflexivity | now rewrite IH]. Qed.

Lemma nth_error_app_here {A : Type} (P R : list A) (a : A) :
  nth_error (P ++ a :: R) (length P) = Some a.
Proof. induction P as [|p P IH]; simpl; [reflexivity | exact IH]. Qed.

Lemma in_range_column (k : nat) (v : Z) :
  label_ok k v = true ->
  (0 <= v - 1 < Z.of_nat k /\ (v - 1) mod Z.of_nat k = v - 1) \/
  (- Z.of_nat k <= v - 1 < 0 /\
   (v - 1) mod Z.of_nat k = v - 1 + Z.of_nat k).
Proof.
  unfold label_ok. intros H. apply andb_true_iff in H. destruct H as [H1 H2].
  apply Z.leb_le in H1, H2.
  destruct (Z_le_gt_dec 0 (v - 1)) as [Hpos|Hneg].
  - left. split; [lia|]. apply Z.mod_small. lia.
  - right. split; [lia|].
    rewrite <- (Z.mod_small (v - 1 + Z.of_nat k) (Z.of_nat k)) by lia.
    rewrite <- (Z.mod_add (v - 1) 1 (Z.of_nat k)) by lia.
    f_equal. lia.
Qed.

Lemma set_one_zero_row (k : nat) (v : Z) :
  set_one (repeat 0 k) (v - 1) =
  match label_error k v with
  | None => Value (one_hot k (label_column k v))
  | Some e => Raised e
  end.
Proof.
  unfold set_one, label_error, one_hot, label_column. rewrite repeat_length.
  destruct (negb (fits_intp (v - 1))); [reflexivity|].
  destruct (label_ok k v) eqn:Hok.
  - destruct (in_range_column k v Hok) as [[Hr ->] | [Hr ->]].
    + destruct (Z.leb_spec 0 (v - 1));
        destruct (Z.ltb_spec (v - 1) (Z.of_nat k)); try lia. reflexivity.
    + destruct (Z.leb_spec 0 (v - 1)); try lia. cbn [andb].
      destruct (Z.leb_spec (- Z.of_nat k) (v - 1));
        destruct (Z.ltb_spec (v - 1) 0); try lia. reflexivity.
  - unfold label_ok in Hok. apply andb_false_iff in Hok.
    destruct (Z.leb_spec 0 (v - 1));
      destruct (Z.ltb_spec (v - 1) (Z.of_nat k));
      destruct (Z.leb_spec (- Z.of_nat k) (v - 1));
      destruct (Z.ltb_spec (v - 1) 0); cbn [andb]; try reflexivity;
      exfalso; destruct Hok as [Hok | Hok]; apply Z.leb_gt in Hok; lia.
Qed.

Lemma convert_cats_raised (e : py_exception) (l : list (nat * Z)) :
  fold_left convert_cats_step l (Raised e) = Raised e.
Proof. induction l as [|iv l IH]; [reflexivity | exact IH]. Qed.

(** The loop, after the rows [P] were written and before the labels [ys]
    are read. *)
Lemma convert_cats_loop (k : nat) (ys : list Z) :
  forall P,
    fold_left convert_cats_step (combine (seq (length P) (length ys)) ys)
              (Value (P ++ repeat (repeat 0 k) (length ys))) =
    match first_error k ys with
    | None => Value (P ++ map (fun v => one_hot k (label_column k v)) ys)
    | Some e => Raised e
    end.
Proof.
  induction ys as [|v ys IH]; intros P.
  - reflexivity.
  - cbn [length seq combine fold_left repeat first_error map].
    unfold convert_cats_step at 2. cbn [fst snd].
    rewrite nth_error_app_here, set_one_zero_row.
    destruct (label_error k v) as [e|].
    + apply convert_cats_raised.
    + rewrite set_nth_app_here.
      replace (P ++ one_hot k (label_column k v) ::
                 repeat (repeat 0 k) (length ys))
        with ((P ++ [one_hot k (label_column k v)]) ++
                repeat (repeat 0 k) (length ys))
        by (now rewrite <- app_assoc).
      replace (S (length P))
        with (length (P ++ [one_hot k (label_column k v)]))
        by (rewrite length_app; simpl; lia).
      rewrite IH. destruct (first_error k ys); [reflexivity|].
      now rewrite <- app_assoc.
Qed.

Lemma convert_cats_eq (y : list Z) :
  convert_cats y =
  match first_error (n_distinct y) y with
  | None => Value (map (fun v => one_hot (n_distinct y)
                                         (label_column (n_distinct y) v)) y)
  | Some e => Raised e
  end.
Proof.
  unfold convert_cats. exact (convert_cats_loop (n_distinct y) y []).
Qed.

Lemma one_hot_nth (k j c : nat) :
  (c < k)%nat -> nth c (one_hot k j) 0 = if (c =? j)%nat then 1 else 0.
Proof.
  unfold one_hot. revert j c. induction k as [|k IH]; intros j c Hc; [lia|].
  destruct j as [|j]; destruct c as [|c]; cbn [repeat set_nth nth Nat.eqb];
    trivial.
  - destruct (nth_in_or_default c (repeat 0 k) 0) as [Hin | ->]; trivial.
    now apply repeat_spec in Hin.
  - apply IH. lia.
Qed.

Lemma length_one_hot (k j : nat) : length (one_hot k j) = k.
Proof.
  unfold one_hot. revert j. induction k as [|k IH]; intros [|j]; simpl;
    trivial.
  - now rewrite repeat_length.
  - now rewrite IH.
Qed.

(** On labels of 64 bits the only exception is [IndexError]. *)
Lemma first_error_int64 (k : nat) (ys : list Z) :
  Forall (fun v => - 2 ^ 63 < v < 2 ^ 63) ys ->
  first_error k ys =
  if forallb (label_ok k) ys then None else Some IndexError.
Proof.
  induction 1 as [|v ys Hv _ IH]; cbn [first_error forallb]; [reflexivity|].
  unfold label_error, fits_intp.
  destruct (Z.leb_spec (- 2 ^ 63) (v - 1)); [|lia].
  destruct (Z.ltb_spec (v - 1) (2 ^ 63)); [|lia]. cbn [andb negb].
  destruct (label_ok k v); cbn [andb]; [exact IH | reflexivity].
Qed.

(** X13: on labels that fit a signed integer of 64 bits, with [k] the
    number of distinct labels, [convert_cats] returns an array exactly
    when every label lies in [1 - k .. k], and raises [IndexError] exactly
    when some label lies outside it. *)
Theorem convert_cats_error (y : list Z) :
  Forall (fun v => - 2 ^ 63 < v < 2 ^ 63) y ->
  let k := Z.of_nat (n_distinct y) in
  ((exists new_y, convert_cats y = Value new_y) <->
   Forall (fun v => 1 - k <= v <= k) y) /\
  (convert_cats y = Raised IndexError <->
   exists v, In v y /\ (v < 1 - k \/ k < v)).
Proof.
  intros Hbits k. rewrite convert_cats_eq, (first_error_int64 _ y Hbits).
  destruct (forallb (label_ok (n_distinct y)) y) eqn:E.
  - rewrite forallb_forall in E.
    assert (Hall : Forall (fun v => 1 - k <= v <= k) y).
    { apply Forall_forall. intros v Hv. specialize (E v Hv).
      unfold label_ok in E. apply andb_true_iff in E. subst k. lia. }
    split; split; trivial.
    + intros _. eauto.
    + discriminate.
    + intros (v & Hv & Hout). rewrite Forall_forall in Hall.
      specialize (Hall v Hv). lia.
  - assert (Hex : exists v, In v y /\ (v < 1 - k \/ k < v)).
    { apply Bool.not_true_iff_false in E.
      destruct (existsb (fun v => negb (label_ok (n_distinct y) v)) y) eqn:X.
      - apply existsb_exists in X. destruct X as (v & Hv & Hn).
        exists v. split; trivial. unfold label_ok in Hn.
        apply negb_true_iff, andb_false_iff in Hn. subst k.
        destruct Hn as [Hn | Hn]; [left | right].
        + apply Z.leb_gt in Hn. exact Hn.
        + apply Z.leb_gt in Hn. exact Hn.
      - exfalso. apply E. apply forallb_forall. intros v Hv.
        destruct (label_ok (n_distinct y) v) eqn:L; trivial.
        assert (existsb (fun v => negb (label_ok (n_distinct y) v)) y = true).
        { apply existsb_exists. exists v. now rewrite L. }
        congruence. }
    split; split; trivial.
    + intros [new_y H]. discriminate H.
    + intros Hall. destruct Hex as (v & Hv & Hout).
      rewrite Forall_forall in Hall. specialize (Hall v Hv). lia.
Qed.

Lemma convert_cats_error_witness :
  Forall (fun v => - 2 ^ 63 < v < 2 ^ 63) [1; 5] /\
  convert_cats [1; 5] = Raised IndexError /\
  (exists v, In v [1; 5] /\ (v < 1 - 2 \/ 2 < v)).
Proof.
  assert (Hbits : Forall (fun v => - 2 ^ 63 < v < 2 ^ 63) [1; 5])
    by (repeat constructor; lia).
  assert (Hraise : convert_cats [1; 5] = Raised IndexError) by reflexivity.
  repeat split; trivial.
  exact (proj1 (proj2 (convert_cats_error [1; 5] Hbits)) Hraise).
Defined.

(** A label whose index does not fit the C integer raises
    [OverflowError], not [IndexError]. *)
Lemma convert_cats_overflow :
  convert_cats [1; 2 ^ 64] = Raised OverflowError.
Proof. reflexivity. Qed.

(** X14: when [convert_cats] returns, the array has one row per label
    and [k] columns, [k] the number of distinct labels, and the row of a
    label [v] is one-hot: 1 in the column [(v - 1) mod k] and 0 elsewhere.
    So the label 1 is written to column 0, and the label 0 to the last
    column. *)
Theorem convert_cats_one_hot (y : list Z) (new_y : list (list Z)) :
  convert_cats y = Value new_y ->
  let k := n_distinct y in
  length new_y = length y /\
  forall i v, nth_error y i = Some v ->
    exists row,
      nth_error new_y i = Some row /\ length row = k /\
      forall c, (c < k)%nat ->
        nth c row 0 =
        if Z.of_nat c =? (v - 1) mod Z.of_nat k then 1 else 0.
Proof.
  rewrite convert_cats_eq.
  destruct (first_error (n_distinct y) y); [discriminate|].
  intros H k. injection H as <-. split; [now rewrite length_map|].
  intros i v Hv. eexists. split; [|split].
  - rewrite nth_error_map, Hv. reflexivity.
  - apply length_one_hot.
  - intros c Hc. rewrite one_hot_nth by exact Hc. unfold label_column.
    fold k. destruct (Nat.eqb_spec c (Z.to_nat ((v - 1) mod Z.of_nat k)))
      as [->|Hne].
    + rewrite Z2Nat.id by (apply Z.mod_pos_bound; lia).
      now rewrite Z.eqb_refl.
    + destruct (Z.eqb_spec (Z.of_nat c) ((v - 1) mod Z.of_nat k))
        as [Heq|_]; trivial.
      exfalso. apply Hne. rewrite <- Heq. now rewrite Nat2Z.id.
Qed.

Lemma convert_cats_one_hot_witness :
  convert_cats [1; 2; 0] = Value [[1; 0; 0]; [0; 1; 0]; [0; 0; 1]] /\
  length [[1; 0; 0]; [0; 1; 0]; [0; 0; 1]] = length [1; 2; 0].
Proof.
  assert (H : convert_cats [1; 2; 0] =
              Value [[1; 0; 0]; [0; 1; 0]; [0; 0; 1]]) by reflexivity.
  split; [exact H|].
  exact (proj1 (convert_cats_one_hot [1; 2; 0] _ H)).
Defined.

(** ** The size returned by [max_rectangle_size] *)

(** X20: on a histogram of non-negative heights, the size [(h, w)]
    returned by [max_rectangle_size] is that of an actual rectangle under
    the histogram: [h] and [w] are non-negative and some [w] consecutive
    columns are all at least [h] high. *)
Theorem max_rectangle_size_fits (histogram : list Z) :
  Forall (fun h => 0 <= h) histogram ->
  let h := fst (fst (max_rectangle_size histogram)) in
  let w := snd (fst (max_rectangle_size histogram)) in
  0 <= h /\ 0 <= w /\
  exists s, 0 <= s /\ s + w <= Z.of_nat (length histogram) /\
    forall c, s <= c < s + w -> h <= column histogram c.
Proof.
  intros Hall h w.
  destruct (max_rectangle_size_list histogram Hall) as [Hfit _].
  exact Hfit.
Qed.

Lemma max_rectangle_size_fits_witness :
  exists s, 0 <= s /\ s + 2 <= 6 /\
    forall c, s <= c < s + 2 -> 5 <= column [2; 1; 5; 6; 2; 3] c.
Proof.
  assert (Hall : Forall (fun h => 0 <= h) [2; 1; 5; 6; 2; 3])
    by (repeat constructor; lia).
  exact (proj2 (proj2 (max_rectangle_size_fits [2; 1; 5; 6; 2; 3] Hall))).
Defined.

(** ** Profiles and argument objects *)

Module ProfilesFacts.

Import stdpp.base stdpp.strings stdpp.gmap.
Import Profiles.

Lemma foldl_set_known (cinst : gset string) (l : list (string * pyval)) :
  ∀ (self : attrs) (k : string),
    NoDup (l.*1) →
    foldl (set_known cinst) self l !! k =
    if decide (k ∈ cinst)
    then match (list_to_map l : gmap string pyval) !! k with
         | Some v => Some v
         | None => self !! k
         end
    else self !! k.
Proof.
  induction l as [|[k0 v0] l IH]; intros self k Hnd.
  - cbn [foldl]. rewrite list_to_map_nil, lookup_empty.
    by destruct (decide (k ∈ cinst)).
  - rewrite fmap_cons in Hnd. apply NoDup_cons in Hnd as [Hk0 Hnd].
    cbn [foldl]. rewrite IH, list_to_map_cons by done.
    unfold set_known. cbn [fst snd].
    pose proof (not_elem_of_list_to_map_1 l k0 Hk0) as Hnone.
    destruct (decide (k = k0)) as [->|Hne].
    + rewrite lookup_insert_eq, Hnone.
      destruct (decide (k0 ∈ cinst)); cbv iota; [|done].
      by rewrite lookup_insert_eq.
    + rewrite (lookup_insert_ne _ k0 k) by done.
      destruct (decide (k ∈ cinst)); destruct (decide (k0 ∈ cinst));
        cbv iota; rewrite ?lookup_insert_ne by done; done.
Qed.

Lemma set_args_lookup_of (fs : file_system) (self : attrs) (f k : string) :
  set_args fs self f !! k =
  match self !! k with
  | None => None
  | Some old =>
      match fs f with
      | Some inparm => Some (default old (inparm !! k))
      | None => Some old
      end
  end.
Proof.
  unfold set_args. destruct (fs f) as [inparm|]; [|by destruct (self !! k)].
  rewrite foldl_set_known by apply NoDup_fst_map_to_list.
  rewrite list_to_map_to_list.
  destruct (decide (k ∈ dom self)) as [Hin|Hout].
  - apply elem_of_dom in Hin as [old Hold]. rewrite Hold.
    by destruct (inparm !! k).
  - apply not_elem_of_dom in Hout. by rewrite Hout.
Qed.

Lemma set_args_dom (fs : file_system) (self : attrs) (f : string) :
  dom (set_args fs self f) = dom self.
Proof.
  apply set_eq. intros k. rewrite !elem_of_dom, set_args_lookup_of.
  destruct (self !! k) as [old|]; [|done].
  destruct (fs f); split; intros _; eauto.
Qed.

Lemma init_snoc (c : cls) (fs : file_system) (pfs : list string) (f : string) :
  init c fs (pfs ++ [f]) = set_args fs (init c fs pfs) f.
Proof. unfold init. by rewrite foldl_snoc. Qed.

Lemma foldl_set_args_dom (fs : file_system) (pfs : list string) :
  ∀ self, dom (foldl (set_args fs) self pfs) = dom self.
Proof.
  induction pfs as [|f pfs IH]; intros self; [done|].
  simpl. by rewrite IH, set_args_dom.
Qed.

Lemma foldl_set_args_untouched (fs : file_system) (k : string)
    (pfs : list string) :
  (∀ f inparm, f ∈ pfs → fs f = Some inparm → inparm !! k = None) →
  ∀ self, foldl (set_args fs) self pfs !! k = self !! k.
Proof.
  induction pfs as [|f pfs IH]; intros Hno self; [done|].
  simpl. rewrite IH.
  - rewrite set_args_lookup_of. destruct (self !! k) as [old|]; [|done].
    destruct (fs f) as [inparm|] eqn:E; [|done].
    by rewrite (Hno f inparm (proj2 (elem_of_cons _ _ _) (or_introl eq_refl)) E).
  - intros f' inparm Hin. apply Hno. apply elem_of_cons. by right.
Qed.

(** X15: [_set_args] rebinds the attributes that the object already has
    and that the profile names, to the profile's values; it never adds an
    attribute, it leaves the other attributes as they are, and a path
    that is not a file changes nothing. *)
Theorem set_args_lookup (fs : file_system) (self : attrs) (f k : string) :
  set_args fs self f !! k =
  match self !! k with
  | None => None
  | Some old =>
      match fs f with
      | Some inparm => Some (default old (inparm !! k))
      | None => Some old
      end
  end.
Proof. apply set_args_lookup_of. Qed.

(** X16: whatever the profiles hold, an argument object has exactly the
    attributes its class sets in [_add_args]; an object of the base class
    [Args] has none. *)
Theorem init_dom (c : cls) (fs : file_system) (pfs : list string) :
  dom (init c fs pfs) = dom (add_args c ∅) ∧
  init Args fs pfs = ∅.
Proof.
  split.
  - unfold init. apply foldl_set_args_dom.
  - apply map_eq. intros k. apply not_elem_of_dom.
    unfold init. rewrite foldl_set_args_dom. simpl.
    by rewrite dom_empty_L.
Qed.

(** X17: the profiles are applied in the order given: an attribute of the
    class that the last profile names has the value of the last profile,
    and an attribute that no profile names keeps the value set in
    [_add_args]. *)
Theorem init_last_wins (c : cls) (fs : file_system) (pfs : list string)
    (k : string) :
  (∀ f inparm v,
     k ∈ dom (add_args c ∅) → fs f = Some inparm → inparm !! k = Some v →
     init c fs (pfs ++ [f]) !! k = Some v) ∧
  ((∀ f inparm, f ∈ pfs → fs f = Some inparm → inparm !! k = None) →
   init c fs pfs !! k = add_args c ∅ !! k).
Proof.
  split.
  - intros f inparm v Hk Hf Hv. rewrite init_snoc, set_args_lookup_of.
    assert (Hin : k ∈ dom (init c fs pfs)).
    { unfold init. by rewrite foldl_set_args_dom. }
    apply elem_of_dom in Hin as [old Hold]. by rewrite Hold, Hf, Hv.
  - intros Hno. unfold init. by apply foldl_set_args_untouched.
Qed.

Lemma init_last_wins_witness :
  let fs : file_system :=
    λ f, if decide (f = "ml.json") then Some {["njobs" := VInt 8]} else None in
  init MLArgs fs ([] ++ ["ml.json"]) !! "njobs" = Some (VInt 8) ∧
  init MLArgs fs ["ml.json"] !! "nfolds" = Some (VInt 5).
Proof.
  intros fs. split.
  - apply (proj1 (init_last_wins MLArgs fs [] "njobs") "ml.json"
                 {["njobs" := VInt 8]} (VInt 8)).
    + apply elem_of_dom. by eexists.
    + done.
    + done.
  - rewrite (proj2 (init_last_wins MLArgs fs ["ml.json"] "nfolds")); [done|].
    intros f inparm _ Hf. unfold fs in Hf.
    destruct (decide (f = "ml.json")); [|done]. by injection Hf as <-.
Defined.

Lemma set_grids_unknown (kernel : pyval) :
  kernel ∉ [VStr "rbf"; VStr "linear"; VStr "poly"; VStr "sigmoid"] →
  set_grids kernel = grids_all.
Proof.
  intros Hk. unfold set_grids.
  destruct (negb (str_eq (VStr "auto") kernel)); [|done].
  assert (Hnone : List.find (λ g, str_eq (first_kernel g) kernel) grids_all
                  = None); [|by rewrite Hnone].
  destruct kernel as [| | | |s| |]; try done.
  rewrite !not_elem_of_cons in Hk. destruct Hk as (H1 & H2 & H3 & H4 & _).
  unfold grids_all. cbn [List.find].
  replace (first_kernel grid_rbf) with (VStr "rbf") by done.
  replace (first_kernel grid_linear) with (VStr "linear") by done.
  replace (first_kernel grid_poly) with (VStr "poly") by done.
  replace (first_kernel grid_sigmoid) with (VStr "sigmoid") by done.
  unfold str_eq.
  rewrite !bool_decide_eq_false_2; [done|congruence..].
Qed.

(** X18: [_set_grids] returns the one grid of the kernel when
    [self.kernel] names [rbf], [linear], [poly] or [sigmoid], and all four
    grids for every other value: ['auto'], a misspelt name, a value that
    is not a string.  After [_set_grids_C], [self.C] is a list and every
    grid that had no ['C'] binds it to that list, its other keys
    unchanged. *)
Theorem set_grids_cases (kernel C : pyval) :
  set_grids (VStr "rbf") = [grid_rbf] ∧
  set_grids (VStr "linear") = [grid_linear] ∧
  set_grids (VStr "poly") = [grid_poly] ∧
  set_grids (VStr "sigmoid") = [grid_sigmoid] ∧
  (kernel ∉ [VStr "rbf"; VStr "linear"; VStr "poly"; VStr "sigmoid"] →
   set_grids kernel = grids_all) ∧
  (set_grids_C C (set_grids kernel)).1 = as_list C ∧
  (set_grids_C C (set_grids kernel)).2 =
    (λ g, <["C" := as_list C]> g) <$> set_grids kernel.
Proof.
  repeat split; try done.
  - apply set_grids_unknown.
  - unfold set_grids_C, as_list. cbn [snd].
    assert (Hall : Forall (λ g : gmap string pyval, g !! "C" = None)
                          (set_grids kernel)).
    { assert (Hg : Forall (λ g : gmap string pyval, g !! "C" = None)
                          grids_all) by (repeat constructor).
      unfold set_grids. destruct (negb (str_eq (VStr "auto") kernel)); [|done].
      destruct (List.find _ grids_all) as [g|] eqn:E; [|done].
      apply find_some in E as [Hin _]. repeat constructor.
      rewrite Forall_forall in Hg. apply Hg. by apply list_elem_of_In. }
    induction Hall as [|g gs Hg _ IH]; [done|].
    cbn [map fmap list_fmap]. rewrite Hg. f_equal. exact IH.
Qed.

Lemma set_grids_cases_witness :
  set_grids (VStr "svc") = grids_all ∧ set_grids VNone = grids_all.
Proof.
  split.
  - apply (proj1 (proj2 (proj2 (proj2 (proj2
             (set_grids_cases (VStr "svc") VNone)))))).
    rewrite !not_elem_of_cons. repeat split; try done. apply not_elem_of_nil.
  - apply (proj1 (proj2 (proj2 (proj2 (proj2
             (set_grids_cases VNone VNone)))))).
    rewrite !not_elem_of_cons. repeat split; try done. apply not_elem_of_nil.
Defined.

(** X19: the grids of an [SVMArgs] object are computed in [_add_args],
    from the default kernel and the default [C], before any profile is
    read: unless a profile itself names [grids], the object searches the
    [rbf] grid with [C = [0.1, 1, 10, 100, 1000]], whatever [kernel] and
    [C] the profiles give. *)
Theorem svm_grids_fixed (fs : file_system) (pfs : list string) :
  (∀ f inparm, f ∈ pfs → fs f = Some inparm → inparm !! "grids" = None) →
  init SVMArgs fs pfs !! "grids" =
  Some (VList [VDict (<["C" := VList [VFloat 1 (-1); VInt 1; VInt 10;
                                       VInt 100; VInt 1000]]> grid_rbf)]).
Proof.
  intros Hno. unfold init. rewrite foldl_set_args_untouched by done.
  reflexivity.
Qed.

Lemma svm_grids_fixed_witness :
  let fs : file_system :=
    λ f, if decide (f = "ml.json")
         then Some (<["C" := VInt 7]> {["kernel" := VStr "linear"]})
         else None in
  init SVMArgs fs ["ml.json"] !! "kernel" = Some (VStr "linear") ∧
  init SVMArgs fs ["ml.json"] !! "grids" =
  Some (VList [VDict (<["C" := VList [VFloat 1 (-1); VInt 1; VInt 10;
                                       VInt 100; VInt 1000]]> grid_rbf)]).
Proof.
  intros fs. split; [reflexivity|].
  apply svm_grids_fixed. intros f inparm _ Hf. unfold fs in Hf.
  destruct (decide (f = "ml.json")); [|done]. by injection Hf as <-.
Defined.

End ProfilesFacts.
